(** * Script representation layer (js/src/vm/JSScript.h)

    A shallow embedding of the reference-counted source record
    ([ScriptSource]), the interned bytecode block ([SharedScriptData]),
    the compiled script ([JSScript]) and the lazy stub ([LazyScript]),
    together with the properties the specification states about them.

    Conventions.
    - A C++ pointer is the integer address it holds; [nullptr] is [0].
    - A [uint32_t] is an integer kept in [0, 2^32) by [wrap32]; a
      [size_t] is kept in range by [wrap_size].
    - A member function that contains [MOZ_ASSERT] is a computation in
      the option monad: [None] is the assertion failure of a debug build.
    - A heap of C++ objects is a finite map from addresses to object
      states; [js_delete] / [js_free] remove the address from the map. *)

From Stdlib Require Import ZArith Bool List Lia.
From Stdlib.Strings Require Import Byte.
From stdpp Require Import base option numbers list gmap.

Local Open Scope Z_scope.

(** ** Machine integers, pointers and assertions *)

Definition wrap32 (z : Z) : Z := z mod 2 ^ 32.

Definition UINT32_MAX : Z := 2 ^ 32 - 1.

Definition nullptr : Z := 0.

(** Contextual conversion of a pointer to [bool] ([if (p)], [!p], [p && ..]). *)
Definition ptr_bool (p : Z) : bool := negb (p =? nullptr).

Definition MOZ_ASSERT (b : bool) : option unit :=
  if b then Some tt else None.

Definition MOZ_ASSERT_IF (c b : bool) : option unit :=
  MOZ_ASSERT (implb c b).

(** Short-circuit [&&] over computations that may assert: the right
    operand is only run (and can only fail) when the left one is true. *)
Definition andM (a b : option bool) : option bool :=
  x ← a; (if x : bool then b else Some false).

Infix "<&&>" := andM (at level 41, right associativity).

(** ** Platform parameters

    [sizeof] of the side-table headers and of [GCPtrAtom], and the width
    of [size_t], are fixed by the target; the header only declares the
    types (lines 148-193). *)

Class ABI := {
  size_t_bits : Z;
  sizeof_GCPtrAtom : Z;
  sizeof_ScopeArray : Z;
  sizeof_ConstArray : Z;
  sizeof_ObjectArray : Z;
  sizeof_TryNoteArray : Z;
  sizeof_ScopeNoteArray : Z
}.

(** A pointer followed by a [uint32_t], padded to pointer alignment. *)
Definition LP64 : ABI :=
  {| size_t_bits := 64; sizeof_GCPtrAtom := 8;
     sizeof_ScopeArray := 16; sizeof_ConstArray := 16;
     sizeof_ObjectArray := 16; sizeof_TryNoteArray := 16;
     sizeof_ScopeNoteArray := 16 |}.

Definition ILP32 : ABI :=
  {| size_t_bits := 32; sizeof_GCPtrAtom := 4;
     sizeof_ScopeArray := 8; sizeof_ConstArray := 8;
     sizeof_ObjectArray := 8; sizeof_TryNoteArray := 8;
     sizeof_ScopeNoteArray := 8 |}.

Definition wrap_size `{ABI} (z : Z) : Z := z mod 2 ^ size_t_bits.

(** Every [sizeof] is a positive [size_t] value. *)
Definition sizeof_ok `{ABI} (n : Z) : Prop := 0 < n < 2 ^ size_t_bits.

Definition abi_ok `{ABI} : Prop :=
  0 < size_t_bits ∧
  sizeof_ok sizeof_GCPtrAtom ∧
  sizeof_ok sizeof_ScopeArray ∧ sizeof_ok sizeof_ConstArray ∧
  sizeof_ok sizeof_ObjectArray ∧ sizeof_ok sizeof_TryNoteArray ∧
  sizeof_ok sizeof_ScopeNoteArray.

(** ** Reference-counted heap objects

    [ScriptSource::decref] (lines 709-714) and
    [SharedScriptData::decRefCount] (lines 1301-1307) are the same code
    up to the name of the counter and of the deallocator:
<<
    MOZ_ASSERT(refs != 0);
    if (--refs == 0) { js_delete(this); }
>>
    An [RcHeap] holds the live objects by address and logs every
    deallocation.  A member call on an address that is not live is
    undefined behaviour and is a failure of the model as well. *)

Record RcHeap (T : Type) := mkRcHeap {
  live : gmap Z T;
  freed : list Z
}.
Arguments mkRcHeap {T} _ _.
Arguments live {T} _.
Arguments freed {T} _.

Section RefCount.
Context {T : Type} (count : T → Z) (set_count : T → Z → T).

(** [refs++] on a [uint32_t]. *)
Definition rc_incref (h : RcHeap T) (this : Z) : option (RcHeap T) :=
  obj ← live h !! this;
  Some (mkRcHeap (<[this := set_count obj (wrap32 (count obj + 1))]> (live h)) (freed h)).

Definition rc_decref (h : RcHeap T) (this : Z) : option (RcHeap T) :=
  obj ← live h !! this;
  MOZ_ASSERT (negb (count obj =? 0));;
  let remain := wrap32 (count obj - 1) in
  if remain =? 0
  then Some (mkRcHeap (delete this (live h)) (this :: freed h))
  else Some (mkRcHeap (<[this := set_count obj remain]> (live h)) (freed h)).

(** Placing a new object at an address that has never been used. *)
Definition rc_create (h : RcHeap T) (this : Z) (obj : T) : option (RcHeap T) :=
  if bool_decide (live h !! this = None ∧ this ∉ freed h)
  then Some (mkRcHeap (<[this := obj]> (live h)) (freed h))
  else None.

Inductive RcOp := Create (this : Z) (obj : T) | Incref (this : Z) | Decref (this : Z).

Definition rc_step (h : RcHeap T) (op : RcOp) : option (RcHeap T) :=
  match op with
  | Create this obj => rc_create h this obj
  | Incref this => rc_incref h this
  | Decref this => rc_decref h this
  end.

Fixpoint rc_run (h : RcHeap T) (ops : list RcOp) : option (RcHeap T) :=
  match ops with
  | [] => Some h
  | op :: ops' => h' ← rc_step h op; rc_run h' ops'
  end.

(** One create/attach/release cycle: the object is created, [k] holders
    attach to it and the same [k] holders release it. *)
Definition rc_cycle (this : Z) (obj : T) (k : nat) : list RcOp :=
  Create this obj :: replicate k (Incref this) ++ replicate k (Decref this).

(** A log in which no address occurs twice records no double free. *)
Definition no_double_free (h : RcHeap T) : Prop := NoDup (freed h).

(** Nothing is both live and freed. *)
Definition freed_not_live (h : RcHeap T) : Prop :=
  ∀ a, a ∈ freed h → live h !! a = None.

(** [release h this] destroyed the object: it is gone from the heap and
    its address was logged once more. *)
Definition destroyed_by (h h' : RcHeap T) (this : Z) : Prop :=
  live h' !! this = None ∧ freed h' = this :: freed h.

(** What the spec says of a release, case by case on the count before
    the call. *)
Definition release_contract (release : RcHeap T → Z → option (RcHeap T)) : Prop :=
  (∀ h this obj, live h !! this = Some obj → count obj = 0 →
     release h this = None) ∧
  (∀ h this obj, live h !! this = Some obj → count obj = 1 →
     ∃ h', release h this = Some h' ∧ destroyed_by h h' this) ∧
  (∀ h this obj, live h !! this = Some obj → 1 < count obj < 2 ^ 32 →
     ∃ h' obj', release h this = Some h' ∧ live h' !! this = Some obj' ∧
                count obj' = count obj - 1 ∧ freed h' = freed h) ∧
  (∀ h this obj h', live h !! this = Some obj → release h this = Some h' →
     (destroyed_by h h' this ↔ wrap32 (count obj - 1) = 0) ∧
     (∀ other, other ≠ this → live h' !! other = live h !! other)) ∧
  (∀ h this, live h !! this = None → release h this = None).

(** Several cycles, one after the other. *)
Definition rc_cycles (cs : list (Z * T * nat)) : list RcOp :=
  flat_map (λ c, rc_cycle c.1.1 c.1.2 c.2) cs.

End RefCount.

(** ** The interned bytecode block: [class SharedScriptData] (lines 1278-1380) *)

Module SharedScriptData.

Record SharedScriptData := mkSharedScriptData {
  refCount_ : Z;
  natoms_ : Z;
  codeLength_ : Z;
  noteLength_ : Z;
  (** the bytes stored from [data()] on: atoms, then code, then notes *)
  data_ : list byte
}.

Definition with_refCount (d : SharedScriptData) (r : Z) : SharedScriptData :=
  {| refCount_ := r; natoms_ := natoms_ d; codeLength_ := codeLength_ d;
     noteLength_ := noteLength_ d; data_ := data_ d |}.

Definition refCount (d : SharedScriptData) : Z := refCount_ d.
Definition natoms (d : SharedScriptData) : Z := natoms_ d.
Definition codeLength (d : SharedScriptData) : Z := codeLength_ d.
Definition numNotes (d : SharedScriptData) : Z := noteLength_ d.
Definition data (d : SharedScriptData) : list byte := data_ d.

Definition incRefCount (h : RcHeap SharedScriptData) (this : Z) :
    option (RcHeap SharedScriptData) :=
  rc_incref refCount_ with_refCount h this.

Definition decRefCount (h : RcHeap SharedScriptData) (this : Z) :
    option (RcHeap SharedScriptData) :=
  rc_decref refCount_ with_refCount h this.

(** [(natoms_ * sizeof(GCPtrAtom)) + codeLength_ + noteLength_] in [size_t]. *)
Definition dataLength `{ABI} (d : SharedScriptData) : Z :=
  wrap_size (natoms_ d * sizeof_GCPtrAtom + codeLength_ d + noteLength_ d).

(** The payload of a block is [dataLength()] bytes long. *)
Definition well_formed `{ABI} (d : SharedScriptData) : Prop :=
  Z.of_nat (length (data_ d)) = dataLength d.

(** [mozilla::ArrayEqual<uint8_t>(a, b, n)]: the first [n] elements of
    the two arrays agree.  An array that ends before [n] elements makes
    the comparison fail. *)
Fixpoint ArrayEqual (a b : list byte) (n : nat) : bool :=
  match n with
  | O => true
  | S n' =>
      match a, b with
      | x :: a', y :: b' => Byte.eqb x y && ArrayEqual a' b' n'
      | _, _ => false
      end
  end.

(** [ScriptBytecodeHasher::match(entry, lookup)] (lines 1367-1379), with
    [data] the block of the lookup. *)
Definition match_ `{ABI} (entry data : SharedScriptData) : bool :=
  if negb (natoms entry =? natoms data) then false
  else if negb (codeLength entry =? codeLength data) then false
  else if negb (numNotes entry =? numNotes data) then false
  else ArrayEqual (SharedScriptData.data entry) (SharedScriptData.data data)
         (Z.to_nat (dataLength data)).

(** *** The interning table

    Modelled from the spec: [intern] of section 4.2.  The header declares
    the table type [ScriptDataTable] (lines 1384-1386) and
    [JSScript::shareScriptData] (line 2326); the body of the latter is
    not part of it.  "Looks up structural match in the process-wide
    table; on hit, increments the match's reference count and discards
    the candidate; on miss, inserts the candidate and returns a reference
    to it."  A registered block carries one reference held by the table
    (section 3), taken when the block is inserted.  The candidate is a
    block that is not registered yet.  The hash of a lookup is computed
    from the contents of its block (the constructor of [Lookup], line
    1360), so blocks that match hash alike and the lookup of the hash
    set is the search for an entry that matches. *)

Record Runtime := mkRuntime {
  heap : gmap Z SharedScriptData;
  scriptDataTable : list Z
}.

(** The first registered block that matches the candidate. *)
Definition lookup `{ABI} (rt : Runtime) (cand : SharedScriptData) : option Z :=
  List.find
    (λ e, match heap rt !! e with
          | Some entry => match_ entry cand
          | None => false
          end)
    (scriptDataTable rt).

Definition intern `{ABI} (rt : Runtime) (candidate : Z) : option (Z * Runtime) :=
  cand ← heap rt !! candidate;
  MOZ_ASSERT (bool_decide (candidate ∉ scriptDataTable rt));;
  match lookup rt cand with
  | Some e =>
      entry ← heap rt !! e;
      let entry' := with_refCount entry (wrap32 (refCount_ entry + 1)) in
      Some (e, mkRuntime (delete candidate (<[e := entry']> (heap rt)))
                         (scriptDataTable rt))
  | None =>
      let cand' := with_refCount cand (wrap32 (refCount_ cand + 1)) in
      Some (candidate,
            mkRuntime (<[candidate := cand']> (heap rt))
                      (candidate :: scriptDataTable rt))
  end.

(** The table registers live blocks only, and no two different
    registered blocks match each other. *)
Definition table_ok `{ABI} (rt : Runtime) : Prop :=
  (∀ e, e ∈ scriptDataTable rt → is_Some (heap rt !! e)) ∧
  (∀ e1 e2 b1 b2,
     e1 ∈ scriptDataTable rt → e2 ∈ scriptDataTable rt →
     heap rt !! e1 = Some b1 → heap rt !! e2 = Some b2 →
     match_ b1 b2 = true → e1 = e2).

(** *** Sample blocks: two copies of the same two-byte block, at the
    addresses 4096 (registered) and 8192 (the candidate). *)

Definition sample_block (refCount : Z) : SharedScriptData :=
  {| refCount_ := refCount; natoms_ := 0; codeLength_ := 1; noteLength_ := 1;
     data_ := [x00; x01]%byte |}.

Definition sample_runtime : Runtime :=
  {| heap := {[ 4096 := sample_block 2; 8192 := sample_block 1 ]};
     scriptDataTable := [4096] |}.

(** *** Regions of the payload (lines 1319-1341)

    [atoms()], [code()] and [notes()] are pointers into the payload;
    [data_addr] is the address [data()] returns. *)

Definition codeOffset `{ABI} (d : SharedScriptData) : Z :=
  wrap_size (natoms_ d * sizeof_GCPtrAtom).

Definition notesOffset `{ABI} (d : SharedScriptData) : Z :=
  wrap_size (natoms_ d * sizeof_GCPtrAtom + codeLength_ d).

Definition atoms (data_addr : Z) (d : SharedScriptData) : Z :=
  if natoms_ d =? 0 then nullptr else data_addr.

Definition code `{ABI} (data_addr : Z) (d : SharedScriptData) : Z :=
  data_addr + codeOffset d.

Definition notes `{ABI} (data_addr : Z) (d : SharedScriptData) : Z :=
  data_addr + notesOffset d.

(** The three counts are [uint32_t] values. *)
Definition counts_in_range (d : SharedScriptData) : Prop :=
  0 ≤ natoms_ d < 2 ^ 32 ∧ 0 ≤ codeLength_ d < 2 ^ 32 ∧ 0 ≤ noteLength_ d < 2 ^ 32.

End SharedScriptData.

(** ** The uncompressed source cache: [ScriptSourceChunk] and
    [UncompressedSourceCache::AutoHoldEntry] (lines 303-419) *)

Module UncompressedSourceCache.

Record ScriptSourceChunk := mkChunk {
  ss : Z;
  chunk : Z
}.

(** [ScriptSourceChunk() = default]. *)
Definition no_chunk : ScriptSourceChunk := {| ss := nullptr; chunk := 0 |}.

Definition valid (c : ScriptSourceChunk) : bool := negb (ss c =? nullptr).

(** [ScriptSourceChunk(ScriptSource* ss, uint32_t chunk)]. *)
Definition new_chunk (source : Z) (index : Z) : option ScriptSourceChunk :=
  let c := {| ss := source; chunk := index |} in
  MOZ_ASSERT (valid c);;
  Some c.

Record AutoHoldEntry := mkAutoHoldEntry {
  cache_ : Z;
  sourceChunk_ : ScriptSourceChunk;
  data_ : Z
}.

(** [explicit AutoHoldEntry() = default]. *)
Definition new_holder : AutoHoldEntry :=
  {| cache_ := nullptr; sourceChunk_ := no_chunk; data_ := nullptr |}.

Definition holdUnits (h : AutoHoldEntry) (units : Z) : option AutoHoldEntry :=
  MOZ_ASSERT (negb (ptr_bool (cache_ h)));;
  MOZ_ASSERT (negb (valid (sourceChunk_ h)));;
  MOZ_ASSERT (negb (ptr_bool (data_ h)));;
  Some {| cache_ := cache_ h; sourceChunk_ := sourceChunk_ h; data_ := units |}.

Definition holdEntry (h : AutoHoldEntry) (cache : Z) (sourceChunk : ScriptSourceChunk) :
    option AutoHoldEntry :=
  MOZ_ASSERT (negb (ptr_bool (cache_ h)));;
  MOZ_ASSERT (negb (valid (sourceChunk_ h)));;
  MOZ_ASSERT (negb (ptr_bool (data_ h)));;
  Some {| cache_ := cache; sourceChunk_ := sourceChunk; data_ := data_ h |}.

Definition deferDelete (h : AutoHoldEntry) (data : Z) : option AutoHoldEntry :=
  MOZ_ASSERT (ptr_bool (cache_ h));;
  MOZ_ASSERT (valid (sourceChunk_ h));;
  MOZ_ASSERT (negb (ptr_bool (data_ h)));;
  Some {| cache_ := nullptr; sourceChunk_ := no_chunk; data_ := data |}.

(** [~AutoHoldEntry()]: whether the destructor calls [releaseEntry] of
    the cache on this holder; [None] is its assertion. *)
Definition releases_entry (h : AutoHoldEntry) : option bool :=
  if ptr_bool (cache_ h)
  then MOZ_ASSERT (valid (sourceChunk_ h));; Some true
  else Some false.

Inductive HoldOp :=
| HoldUnits (units : Z)
| HoldEntry (cache : Z) (sourceChunk : ScriptSourceChunk)
| DeferDelete (data : Z).

Definition hold_step (h : AutoHoldEntry) (op : HoldOp) : option AutoHoldEntry :=
  match op with
  | HoldUnits units => holdUnits h units
  | HoldEntry cache sourceChunk => holdEntry h cache sourceChunk
  | DeferDelete data => deferDelete h data
  end.

Fixpoint hold_run (h : AutoHoldEntry) (ops : list HoldOp) : option AutoHoldEntry :=
  match ops with
  | [] => Some h
  | op :: ops' => h' ← hold_step h op; hold_run h' ops'
  end.

(** An operation that hands the holder something to own: units, a cache
    with a valid chunk, or the data of a purged entry. *)
Definition takes_ownership (op : HoldOp) : bool :=
  match op with
  | HoldUnits units => ptr_bool units
  | HoldEntry cache sourceChunk => ptr_bool cache && valid sourceChunk
  | DeferDelete data => ptr_bool data
  end.

End UncompressedSourceCache.

(** ** The source record: [class ScriptSource] (lines 490-1155) *)

Module ScriptSource.

(** The two source unit types, [mozilla::Utf8Unit] and [char16_t]. *)
Inductive Unit := Utf8Unit | char16_t.

Definition sizeof_Unit (u : Unit) : Z :=
  match u with Utf8Unit => 1 | char16_t => 2 end.

(** [using SourceType = mozilla::Variant<...>] (lines 543-592).  A
    [SharedImmutableString] is the address of its characters and its
    length. *)
Inductive SourceType :=
| Compressed (u : Unit) (raw : Z) (rawLength : Z) (uncompressedLength : Z)
| Uncompressed (u : Unit) (string_ : Z) (length : Z)
| Missing
| BinAST (string : Z) (length : Z).

(** The allocation a pinned pointer points into: the uncompressed buffer
    owned by the source, or units kept alive by the pin's own
    [AutoHoldEntry]. *)
Inductive PinTarget := InSourceBuffer (string_ : Z) | InHolder (storage : Z).

(** [class PinnedUnits] (lines 494-532); [self] is the address of the
    guard object, [prev_] is the rest of the stack it is linked into. *)
Record PinnedUnits := mkPinnedUnits {
  self : Z;
  units_ : Z;
  target : PinTarget
}.

Record ScriptSource := mkScriptSource {
  refs : Z;
  data : SourceType;
  pinnedUnitsStack_ : list PinnedUnits;
  pendingCompressed_ : option (Unit * Z * Z * Z)
}.

Definition with_refs (ss : ScriptSource) (r : Z) : ScriptSource :=
  {| refs := r; data := data ss; pinnedUnitsStack_ := pinnedUnitsStack_ ss;
     pendingCompressed_ := pendingCompressed_ ss |}.

Definition with_data (ss : ScriptSource) (d : SourceType) : ScriptSource :=
  {| refs := refs ss; data := d; pinnedUnitsStack_ := pinnedUnitsStack_ ss;
     pendingCompressed_ := pendingCompressed_ ss |}.

Definition with_stack (ss : ScriptSource) (st : list PinnedUnits) : ScriptSource :=
  {| refs := refs ss; data := data ss; pinnedUnitsStack_ := st;
     pendingCompressed_ := pendingCompressed_ ss |}.

Definition with_pending (ss : ScriptSource) (p : option (Unit * Z * Z * Z)) : ScriptSource :=
  {| refs := refs ss; data := data ss; pinnedUnitsStack_ := pinnedUnitsStack_ ss;
     pendingCompressed_ := p |}.

(** [explicit ScriptSource()] (lines 685-702). *)
Definition new_source : ScriptSource :=
  {| refs := 0; data := Missing; pinnedUnitsStack_ := []; pendingCompressed_ := None |}.

(** *** Reference counting (lines 708-714) *)

Definition incref (h : RcHeap ScriptSource) (this : Z) : option (RcHeap ScriptSource) :=
  rc_incref refs with_refs h this.

Definition decref (h : RcHeap ScriptSource) (this : Z) : option (RcHeap ScriptSource) :=
  rc_decref refs with_refs h this.

(** *** Variant matchers (lines 801-935) *)

Definition hasUncompressedSource (ss : ScriptSource) : bool :=
  match data ss with Uncompressed _ _ _ => true | _ => false end.

Definition hasCompressedSource (ss : ScriptSource) : bool :=
  match data ss with Compressed _ _ _ _ => true | _ => false end.

Definition hasSourceText (ss : ScriptSource) : bool :=
  hasUncompressedSource ss || hasCompressedSource ss.

Definition hasBinASTSource (ss : ScriptSource) : bool :=
  match data ss with BinAST _ _ => true | _ => false end.

(** [length()]; [None] is the assertion or [MOZ_CRASH] on a missing source. *)
Definition length (ss : ScriptSource) : option Z :=
  MOZ_ASSERT (hasSourceText ss || hasBinASTSource ss);;
  match data ss with
  | Uncompressed _ _ n => Some n
  | Compressed _ _ _ n => Some n
  | BinAST _ n => Some n
  | Missing => None
  end.

(** *** Pinning and deferred compression

    Modelled from the spec: [pin] and the application of a finished
    compression (sections 4.1 and 5), with the data members of lines
    594-598.  The header declares [PinnedUnits]'s constructor and
    destructor, [units], [setCompressedSource] and
    [movePendingCompressedSource] (lines 519-523, 674-678, 992); their
    bodies are not part of it.  "If the GC attempts to call
    setCompressedSource with PinnedUnits present, the first PinnedUnits
    (that is, bottom of the stack) will set the compressed chars upon
    destruction" (lines 594-596).  Guards are scoped objects, so they are
    destroyed in the reverse order of their construction. *)

(** [units(cx, holder, begin, len)]: a pointer into the uncompressed
    buffer, or into units that [holder] keeps alive when the source is
    compressed ([storage] is null when decompression ran out of memory).
    Asking a source without text is a programming error. *)
Definition units (ss : ScriptSource) (storage begin len : Z) : option (Z * PinTarget) :=
  match data ss with
  | Uncompressed u string_ _ => Some (string_ + begin * sizeof_Unit u, InSourceBuffer string_)
  | Compressed _ _ _ _ => Some (storage, InHolder storage)
  | Missing | BinAST _ _ => None
  end.

(** The constructor of [PinnedUnits]: a guard that obtained units links
    itself on top of the stack. *)
Definition pin (ss : ScriptSource) (this storage begin len : Z) :
    option (PinnedUnits * ScriptSource) :=
  '(p, tgt) ← units ss storage begin len;
  let guard := {| self := this; units_ := p; target := tgt |} in
  if ptr_bool p
  then Some (guard, with_stack ss (guard :: pinnedUnitsStack_ ss))
  else Some (guard, ss).

Definition movePendingCompressedSource (ss : ScriptSource) : ScriptSource :=
  match pendingCompressed_ ss with
  | None => ss
  | Some (u, raw, rawLength, n) =>
      with_pending (with_data ss (Compressed u raw rawLength n)) None
  end.

(** The destructor of [PinnedUnits]: the guard on top of the stack
    unlinks itself; the bottom one then applies a pending compression. *)
Definition unpin (ss : ScriptSource) (guard : PinnedUnits) : option ScriptSource :=
  if ptr_bool (units_ guard) then
    match pinnedUnitsStack_ ss with
    | top :: prev =>
        MOZ_ASSERT (self top =? self guard);;
        let ss' := with_stack ss prev in
        Some (match prev with
              | [] => movePendingCompressedSource ss'
              | _ :: _ => ss'
              end)
    | [] => None
    end
  else Some ss.

(** [setCompressedSource<Unit>(compressed, sourceLength)]. *)
Definition setCompressedSource (ss : ScriptSource) (u : Unit)
    (raw rawLength sourceLength : Z) : option ScriptSource :=
  match pinnedUnitsStack_ ss with
  | _ :: _ =>
      MOZ_ASSERT (bool_decide (pendingCompressed_ ss = None));;
      Some (with_pending ss (Some (u, raw, rawLength, sourceLength)))
  | [] => Some (with_data ss (Compressed u raw rawLength sourceLength))
  end.

(** [SetCompressedSourceFromTask] (lines 1020-1052): what the owning
    thread runs when a background compression has completed.  Every
    alternative but the uncompressed one is a [MOZ_CRASH]. *)
Definition setCompressedSourceFromTask (ss : ScriptSource) (raw rawLength : Z) :
    option ScriptSource :=
  match data ss with
  | Uncompressed u _ _ =>
      n ← length ss; setCompressedSource ss u raw rawLength n
  | Compressed _ _ _ _ | BinAST _ _ | Missing => None
  end.

Inductive SourceOp :=
| Pin (this storage begin len : Z)
| Unpin (this : Z)
| CompressionDone (raw rawLength : Z).

Definition source_step (ss : ScriptSource) (op : SourceOp) : option ScriptSource :=
  match op with
  | Pin this storage begin len => snd <$> pin ss this storage begin len
  | Unpin this =>
      match pinnedUnitsStack_ ss with
      | top :: _ => MOZ_ASSERT (self top =? this);; unpin ss top
      | [] => None
      end
  | CompressionDone raw rawLength => setCompressedSourceFromTask ss raw rawLength
  end.

Fixpoint source_run (ss : ScriptSource) (ops : list SourceOp) : option ScriptSource :=
  match ops with
  | [] => Some ss
  | op :: ops' => ss' ← source_step ss op; source_run ss' ops'
  end.

(** The pointer of a guard is valid while the allocation it points
    into is: the uncompressed buffer for as long as the source still
    holds it, the holder's units for as long as the guard lives. *)
Definition pin_valid (ss : ScriptSource) (guard : PinnedUnits) : Prop :=
  match target guard with
  | InSourceBuffer string_ => ∃ u n, data ss = Uncompressed u string_ n
  | InHolder _ => True
  end.

Definition pins_valid (ss : ScriptSource) : Prop :=
  ∀ guard, guard ∈ pinnedUnitsStack_ ss → pin_valid ss guard.

(** *** [class ScriptSourceHolder] (lines 1157-1188) *)

Record ScriptSourceHolder := mkHolder { ss : Z }.

Definition reset (h : RcHeap ScriptSource) (holder : ScriptSourceHolder) (newss : Z) :
    option (RcHeap ScriptSource * ScriptSourceHolder) :=
  (* incref before decref just in case ss == newss. *)
  h1 ← (if ptr_bool newss then incref h newss else Some h);
  h2 ← (if ptr_bool (ss holder) then decref h1 (ss holder) else Some h1);
  Some (h2, mkHolder newss).

(** [n] create/attach/release cycles on [n] sources, three holders
    each, at the addresses [1 .. n]. *)
Definition source_cycles (n : nat) : list (Z * ScriptSource * nat) :=
  (λ i : nat, (Z.of_nat (S i), new_source, 3%nat)) <$> seq 0 n.

Definition empty_heap : RcHeap ScriptSource := mkRcHeap ∅ [].

(** A heap with one source, at address 4096, held by one holder. *)
Definition held_source : ScriptSource := with_refs new_source 1.

Definition one_source_heap : RcHeap ScriptSource :=
  mkRcHeap {[ 4096 := held_source ]} [].

(** A heap with two sources: the one at 4096 has two holders, the one at
    8192 has one. *)
Definition two_source_heap : RcHeap ScriptSource :=
  mkRcHeap (<[ 4096 := with_refs new_source 2 ]> {[ 8192 := held_source ]}) [].

(** An uncompressed UTF-8 source of 100 units stored at address 4096. *)
Definition sample_source : ScriptSource :=
  with_data (with_refs new_source 1) (Uncompressed Utf8Unit 4096 100).

(** [sample_source] with one guard outstanding, at offset 10, and a
    finished compression pending. *)
Definition pinned_source_with_pending : ScriptSource :=
  {| refs := 1; data := Uncompressed Utf8Unit 4096 100;
     pinnedUnitsStack_ :=
       [ {| self := 1; units_ := 4106; target := InSourceBuffer 4096 |} ];
     pendingCompressed_ := Some (Utf8Unit, 8192, 40, 100) |}.

(** *** Accessors of the variant (lines 733-964)

    Each accessor is a matcher over [data]; [None] is its [MOZ_CRASH]
    alternative or a failed assertion. *)

Definition Unit_eqb (u v : Unit) : bool :=
  match u, v with
  | Utf8Unit, Utf8Unit | char16_t, char16_t => true
  | _, _ => false
  end.

(** [uncompressedData<Unit>()], [UncompressedDataMatcher]. *)
Definition uncompressedData (ss : ScriptSource) : option Z :=
  match data ss with
  | Uncompressed _ string_ _ => Some string_
  | _ => None
  end.

(** [compressedData<Unit>()], [CompressedDataMatcher]. *)
Definition compressedData (ss : ScriptSource) : option Z :=
  match data ss with
  | Compressed _ raw _ _ => Some raw
  | _ => None
  end.

(** [binASTData()], [BinASTDataMatcher]. *)
Definition binASTData (ss : ScriptSource) : option Z :=
  match data ss with
  | BinAST string _ => Some string
  | _ => None
  end.

(** [uncompressedSourceIs<Unit>()]. *)
Definition uncompressedSourceIs (ss : ScriptSource) (u : Unit) : option bool :=
  MOZ_ASSERT (hasUncompressedSource ss);;
  Some (match data ss with Uncompressed u' _ _ => Unit_eqb u' u | _ => false end).

(** [compressedSourceIs<Unit>()]. *)
Definition compressedSourceIs (ss : ScriptSource) (u : Unit) : option bool :=
  MOZ_ASSERT (hasCompressedSource ss);;
  Some (match data ss with Compressed u' _ _ _ => Unit_eqb u' u | _ => false end).

(** [hasSourceType<Unit>()], [SourceTypeMatcher<Unit>]. *)
Definition hasSourceType (ss : ScriptSource) (u : Unit) : option bool :=
  match data ss with
  | Compressed u' _ _ _ => Some (Unit_eqb u' u)
  | Uncompressed u' _ _ => Some (Unit_eqb u' u)
  | BinAST _ _ | Missing => None
  end.

(** [sourceCharSize()], [SourceCharSizeMatcher]. *)
Definition sourceCharSize (ss : ScriptSource) : option Z :=
  match data ss with
  | Compressed u _ _ _ => Some (sizeof_Unit u)
  | Uncompressed u _ _ => Some (sizeof_Unit u)
  | BinAST _ _ | Missing => None
  end.

(** [compressedLengthOrZero()], [CompressedLengthOrZeroMatcher]. *)
Definition compressedLengthOrZero (ss : ScriptSource) : option Z :=
  match data ss with
  | Uncompressed _ _ _ => Some 0
  | Compressed _ _ rawLength _ => Some rawLength
  | BinAST _ _ | Missing => None
  end.

(** *** Introduction offset (lines 607-610, 659, 1105-1115) *)

Record Introduction := mkIntroduction {
  introductionOffset_ : Z;
  hasIntroductionOffset_ : bool
}.

(** As the constructor leaves the two members (lines 693, 699). *)
Definition no_introduction : Introduction :=
  {| introductionOffset_ := 0; hasIntroductionOffset_ := false |}.

Definition INT32_MAX : Z := 2 ^ 31 - 1.

Definition hasIntroductionOffset (i : Introduction) : bool := hasIntroductionOffset_ i.

Definition introductionOffset (i : Introduction) : option Z :=
  MOZ_ASSERT (hasIntroductionOffset i);;
  Some (introductionOffset_ i).

Definition setIntroductionOffset (i : Introduction) (offset : Z) : option Introduction :=
  MOZ_ASSERT (negb (hasIntroductionOffset i));;
  MOZ_ASSERT (offset <=? INT32_MAX);;
  Some {| introductionOffset_ := offset; hasIntroductionOffset_ := true |}.

(** *** Construction and destruction of a holder (lines 1161-1174, 1185-1187) *)

(** [ScriptSourceHolder()]. *)
Definition empty_holder : ScriptSourceHolder := mkHolder nullptr.

(** [explicit ScriptSourceHolder(ScriptSource* ss)]. *)
Definition hold (h : RcHeap ScriptSource) (source : Z) :
    option (RcHeap ScriptSource * ScriptSourceHolder) :=
  h' ← incref h source;
  Some (h', mkHolder source).

(** [~ScriptSourceHolder()]. *)
Definition drop (h : RcHeap ScriptSource) (holder : ScriptSourceHolder) :
    option (RcHeap ScriptSource) :=
  if ptr_bool (ss holder) then decref h (ss holder) else Some h.

Definition get (holder : ScriptSourceHolder) : Z := ss holder.

End ScriptSource.

(** ** The lazy stub: [class LazyScript] (lines 2672-3104) *)

Module LazyScript.

(** A [TenuredCell*] together with the kind of cell it points to, which
    is what [is<Scope>()] and [is<LazyScript>()] test. *)
Inductive TenuredCell :=
| NullCell
| ScopeCell (p : Z)
| LazyScriptCell (p : Z).

Record LazyScript := mkLazyScript {
  script_ : Z;
  enclosingLazyScriptOrScope_ : TenuredCell
}.

Definition maybeScript (l : LazyScript) : Z := script_ l.

Definition hasScript (l : LazyScript) : bool := ptr_bool (script_ l).

Definition hasEnclosingScope (l : LazyScript) : bool :=
  match enclosingLazyScriptOrScope_ l with ScopeCell _ => true | _ => false end.

Definition hasEnclosingLazyScript (l : LazyScript) : bool :=
  match enclosingLazyScriptOrScope_ l with LazyScriptCell _ => true | _ => false end.

Definition enclosingLazyScript (l : LazyScript) : option Z :=
  MOZ_ASSERT (hasEnclosingLazyScript l);;
  match enclosingLazyScriptOrScope_ l with LazyScriptCell p => Some p | _ => None end.

Definition enclosingScope (l : LazyScript) : option Z :=
  MOZ_ASSERT (hasEnclosingScope l);;
  match enclosingLazyScriptOrScope_ l with ScopeCell p => Some p | _ => None end.

Definition enclosingScriptHasEverBeenCompiled (l : LazyScript) : bool :=
  hasEnclosingScope l.

(** A stub as [Create] leaves it: not compiled, enclosing link null
    (the "nullptr" boxes of the diagram, lines 2720-2757). *)
Definition new_lazy : LazyScript :=
  {| script_ := nullptr; enclosingLazyScriptOrScope_ := NullCell |}.

(** *** Enclosing link

    Modelled from the spec: [setEnclosingScope] and [setEnclosingStub]
    ([setEnclosingLazyScript], lines 2895 and 2901) as the tagged union
    of section 9, "with a transition function that asserts the prior
    state was EnclosingStub or Uninit, never re-enterable once
    EnclosingScope is set".  The header declares the two setters and
    documents them (lines 2711-2757): each "cannot be called twice", the
    link goes from null to the enclosing LazyScript or to the enclosing
    Scope and from the enclosing LazyScript to the enclosing Scope, and
    "once this field is changed to point the enclosing scope, this field
    will never point the enclosing LazyScript again".  Their bodies are
    not part of it. *)

Definition setEnclosingLazyScript (l : LazyScript) (enclosing : Z) : option LazyScript :=
  MOZ_ASSERT (ptr_bool enclosing);;
  MOZ_ASSERT (negb (hasEnclosingLazyScript l));;
  MOZ_ASSERT (negb (hasEnclosingScope l));;
  Some {| script_ := script_ l; enclosingLazyScriptOrScope_ := LazyScriptCell enclosing |}.

Definition setEnclosingScope (l : LazyScript) (enclosing : Z) : option LazyScript :=
  MOZ_ASSERT (ptr_bool enclosing);;
  MOZ_ASSERT (negb (hasEnclosingScope l));;
  Some {| script_ := script_ l; enclosingLazyScriptOrScope_ := ScopeCell enclosing |}.

Inductive EnclosingOp :=
| SetEnclosingLazyScript (enclosing : Z)
| SetEnclosingScope (enclosing : Z).

Definition enclosing_step (l : LazyScript) (op : EnclosingOp) : option LazyScript :=
  match op with
  | SetEnclosingLazyScript p => setEnclosingLazyScript l p
  | SetEnclosingScope p => setEnclosingScope l p
  end.

Fixpoint enclosing_run (l : LazyScript) (ops : list EnclosingOp) : option LazyScript :=
  match ops with
  | [] => Some l
  | op :: ops' => l' ← enclosing_step l op; enclosing_run l' ops'
  end.

(** Position of a link in the order null, stub, scope. *)
Definition link_rank (c : TenuredCell) : nat :=
  match c with NullCell => 0 | LazyScriptCell _ => 1 | ScopeCell _ => 2 end.

Definition is_SetEnclosingScope (op : EnclosingOp) : bool :=
  match op with SetEnclosingScope _ => true | _ => false end.

Definition is_SetEnclosingLazyScript (op : EnclosingOp) : bool :=
  match op with SetEnclosingLazyScript _ => true | _ => false end.

(** How many operations of a run satisfy [f]. *)
Definition count_ops (f : EnclosingOp → bool) (ops : list EnclosingOp) : nat :=
  length (List.filter f ops).

(** *** Delazification

    Modelled from the spec: [delazify] of section 4.4, "on success,
    records a weak back-reference; idempotent if already delazified and
    the result is still alive (returns the existing script rather than
    recompiling)".  The header declares [initScript] (line 2870) and the
    weak field [script_] (lines 2675-2678); the function that compiles a
    lazy function lives outside it.  [compiled] is what the compiler
    returns when it is run: the address of a new script, or null when
    compilation fails. *)

Definition initScript (l : LazyScript) (script : Z) : option LazyScript :=
  MOZ_ASSERT (ptr_bool script);;
  MOZ_ASSERT (negb (hasScript l));;
  Some {| script_ := script;
          enclosingLazyScriptOrScope_ := enclosingLazyScriptOrScope_ l |}.

Inductive DelazifyResult :=
| Delazified (script : Z) (l : LazyScript)
| CompileError
| DelazifyAssertion.

Definition delazify (l : LazyScript) (compiled : Z) : DelazifyResult :=
  if hasScript l then Delazified (maybeScript l) l
  else if negb (ptr_bool compiled) then CompileError
  else match initScript l compiled with
       | Some l' => Delazified compiled l'
       | None => DelazifyAssertion
       end.

(** A collection that finds the compiled script unreachable clears the
    weak reference. *)
Definition sweep (l : LazyScript) : LazyScript :=
  {| script_ := nullptr;
     enclosingLazyScriptOrScope_ := enclosingLazyScriptOrScope_ l |}.

(** *** Source extent (lines 2806-2815, 3052-3078) *)

Record Extent := mkExtent {
  sourceStart_ : Z;
  sourceEnd_ : Z;
  toStringStart_ : Z;
  toStringEnd_ : Z
}.

Definition sourceStart (e : Extent) : Z := sourceStart_ e.
Definition sourceEnd (e : Extent) : Z := sourceEnd_ e.
Definition toStringStart (e : Extent) : Z := toStringStart_ e.
Definition toStringEnd (e : Extent) : Z := toStringEnd_ e.

(** [sourceEnd_ - sourceStart_] on [uint32_t]. *)
Definition sourceLength (e : Extent) : Z := wrap32 (sourceEnd_ e - sourceStart_ e).

Definition setToStringEnd (e : Extent) (toStringEnd : Z) : option Extent :=
  MOZ_ASSERT (toStringStart_ e <=? toStringEnd);;
  MOZ_ASSERT (toStringEnd_ e >=? sourceEnd_ e);;
  Some {| sourceStart_ := sourceStart_ e; sourceEnd_ := sourceEnd_ e;
          toStringStart_ := toStringStart_ e; toStringEnd_ := toStringEnd |}.

(** The four offsets are [uint32_t] values. *)
Definition extent_in_range (e : Extent) : Prop :=
  0 ≤ sourceStart_ e < 2 ^ 32 ∧ 0 ≤ sourceEnd_ e < 2 ^ 32 ∧
  0 ≤ toStringStart_ e < 2 ^ 32 ∧ 0 ≤ toStringEnd_ e < 2 ^ 32.

End LazyScript.

(** ** The compiled script: [class JSScript] (lines 1396-2662) *)

Module JSScript.

(** [enum ArrayKind] (lines 1522-1528). *)
Inductive ArrayKind := CONSTS | OBJECTS | TRYNOTES | SCOPENOTES.

Definition ArrayKind_value (k : ArrayKind) : Z :=
  match k with CONSTS => 0 | OBJECTS => 1 | TRYNOTES => 2 | SCOPENOTES => 3 end.

Definition ARRAY_KIND_BITS : Z := 4.

(** [struct BitFields] (lines 1531-1672), restricted to the bit-fields
    that the member functions below read or write. *)
Record BitFields := mkBitFields {
  hasArrayBits_ : Z;
  selfHosted_ : bool;
  treatAsRunOnce_ : bool;
  hasRunOnce_ : bool;
  isActiveEval_ : bool;
  isCachedEval_ : bool;
  hasScriptCounts_ : bool;
  hasDebugScript_ : bool;
  doNotRelazify_ : bool;
  hasInnerFunctions_ : bool;
  isDefaultClassConstructor_ : bool;
  isGenerator_ : bool;
  isAsync_ : bool;
  hideScriptFromDebugger_ : bool
}.

(** The data members the member functions below read or write
    (lines 1402-1436). *)
Record JSScript := mkJSScript {
  types_ : Z;
  ion : Z;
  baseline : Z;
  lazyScript : Z;
  bitFields_ : BitFields
}.

Definition with_bitFields (s : JSScript) (b : BitFields) : JSScript :=
  {| types_ := types_ s; ion := ion s; baseline := baseline s;
     lazyScript := lazyScript s; bitFields_ := b |}.

Definition with_ion (s : JSScript) (p : Z) : JSScript :=
  {| types_ := types_ s; ion := p; baseline := baseline s;
     lazyScript := lazyScript s; bitFields_ := bitFields_ s |}.

Definition with_baseline (s : JSScript) (p : Z) : JSScript :=
  {| types_ := types_ s; ion := ion s; baseline := p;
     lazyScript := lazyScript s; bitFields_ := bitFields_ s |}.

Definition with_hasArrayBits (b : BitFields) (v : Z) : BitFields :=
  {| hasArrayBits_ := v; selfHosted_ := selfHosted_ b;
     treatAsRunOnce_ := treatAsRunOnce_ b; hasRunOnce_ := hasRunOnce_ b;
     isActiveEval_ := isActiveEval_ b; isCachedEval_ := isCachedEval_ b;
     hasScriptCounts_ := hasScriptCounts_ b; hasDebugScript_ := hasDebugScript_ b;
     doNotRelazify_ := doNotRelazify_ b; hasInnerFunctions_ := hasInnerFunctions_ b;
     isDefaultClassConstructor_ := isDefaultClassConstructor_ b;
     isGenerator_ := isGenerator_ b; isAsync_ := isAsync_ b;
     hideScriptFromDebugger_ := hideScriptFromDebugger_ b |}.

Definition with_hasRunOnce (b : BitFields) (v : bool) : BitFields :=
  {| hasArrayBits_ := hasArrayBits_ b; selfHosted_ := selfHosted_ b;
     treatAsRunOnce_ := treatAsRunOnce_ b; hasRunOnce_ := v;
     isActiveEval_ := isActiveEval_ b; isCachedEval_ := isCachedEval_ b;
     hasScriptCounts_ := hasScriptCounts_ b; hasDebugScript_ := hasDebugScript_ b;
     doNotRelazify_ := doNotRelazify_ b; hasInnerFunctions_ := hasInnerFunctions_ b;
     isDefaultClassConstructor_ := isDefaultClassConstructor_ b;
     isGenerator_ := isGenerator_ b; isAsync_ := isAsync_ b;
     hideScriptFromDebugger_ := hideScriptFromDebugger_ b |}.

Definition with_isActiveEval (b : BitFields) (v : bool) : BitFields :=
  {| hasArrayBits_ := hasArrayBits_ b; selfHosted_ := selfHosted_ b;
     treatAsRunOnce_ := treatAsRunOnce_ b; hasRunOnce_ := hasRunOnce_ b;
     isActiveEval_ := v; isCachedEval_ := isCachedEval_ b;
     hasScriptCounts_ := hasScriptCounts_ b; hasDebugScript_ := hasDebugScript_ b;
     doNotRelazify_ := doNotRelazify_ b; hasInnerFunctions_ := hasInnerFunctions_ b;
     isDefaultClassConstructor_ := isDefaultClassConstructor_ b;
     isGenerator_ := isGenerator_ b; isAsync_ := isAsync_ b;
     hideScriptFromDebugger_ := hideScriptFromDebugger_ b |}.

Definition with_isCachedEval (b : BitFields) (v : bool) : BitFields :=
  {| hasArrayBits_ := hasArrayBits_ b; selfHosted_ := selfHosted_ b;
     treatAsRunOnce_ := treatAsRunOnce_ b; hasRunOnce_ := hasRunOnce_ b;
     isActiveEval_ := isActiveEval_ b; isCachedEval_ := v;
     hasScriptCounts_ := hasScriptCounts_ b; hasDebugScript_ := hasDebugScript_ b;
     doNotRelazify_ := doNotRelazify_ b; hasInnerFunctions_ := hasInnerFunctions_ b;
     isDefaultClassConstructor_ := isDefaultClassConstructor_ b;
     isGenerator_ := isGenerator_ b; isAsync_ := isAsync_ b;
     hideScriptFromDebugger_ := hideScriptFromDebugger_ b |}.

(** *** Plain accessors *)

Definition selfHosted (s : JSScript) : bool := selfHosted_ (bitFields_ s).
Definition hasRunOnce (s : JSScript) : bool := hasRunOnce_ (bitFields_ s).
Definition isActiveEval (s : JSScript) : bool := isActiveEval_ (bitFields_ s).
Definition isCachedEval (s : JSScript) : bool := isCachedEval_ (bitFields_ s).
Definition isDefaultClassConstructor (s : JSScript) : bool :=
  isDefaultClassConstructor_ (bitFields_ s).
Definition isGenerator (s : JSScript) : bool := isGenerator_ (bitFields_ s).
Definition isAsync (s : JSScript) : bool := isAsync_ (bitFields_ s).
Definition hasInnerFunctions (s : JSScript) : bool := hasInnerFunctions_ (bitFields_ s).
Definition hideScriptFromDebugger (s : JSScript) : bool :=
  hideScriptFromDebugger_ (bitFields_ s).
Definition hasAnyBreakpointsOrStepMode (s : JSScript) : bool :=
  hasDebugScript_ (bitFields_ s).

(** *** Trailing arrays (lines 2371-2398) *)

(** [bitFields_.hasArrayBits_ & (1 << kind)], converted to [bool]. *)
Definition hasArray (s : JSScript) (kind : ArrayKind) : bool :=
  negb (Z.land (hasArrayBits_ (bitFields_ s))
               (Z.shiftl 1 (ArrayKind_value kind)) =? 0).

(** [hasArrayBits_ |= (1 << kind)], stored in a bit-field of
    [ARRAY_KIND_BITS] bits. *)
Definition setHasArray (s : JSScript) (kind : ArrayKind) : JSScript :=
  with_bitFields s
    (with_hasArrayBits (bitFields_ s)
       (Z.lor (hasArrayBits_ (bitFields_ s)) (Z.shiftl 1 (ArrayKind_value kind))
          mod 2 ^ ARRAY_KIND_BITS)).

Definition cloneHasArray (s script : JSScript) : JSScript :=
  with_bitFields s
    (with_hasArrayBits (bitFields_ s) (hasArrayBits_ (bitFields_ script))).

Definition hasConsts (s : JSScript) : bool := hasArray s CONSTS.
Definition hasObjects (s : JSScript) : bool := hasArray s OBJECTS.
Definition hasTrynotes (s : JSScript) : bool := hasArray s TRYNOTES.
Definition hasScopeNotes (s : JSScript) : bool := hasArray s SCOPENOTES.
Definition hasYieldAndAwaitOffsets (s : JSScript) : bool :=
  isGenerator s || isAsync s.

Section Offsets.
Context `{abi : ABI}.

(** [#define OFF(fooOff, hasFoo, t) (fooOff() + (hasFoo() ? sizeof(t) : 0))] *)
Definition OFF (fooOff : Z) (hasFoo : bool) (sizeof_t : Z) : Z :=
  wrap_size (fooOff + (if hasFoo then sizeof_t else 0)).

Definition scopesOffset (s : JSScript) : Z := 0.
Definition constsOffset (s : JSScript) : Z :=
  wrap_size (scopesOffset s + sizeof_ScopeArray).
Definition objectsOffset (s : JSScript) : Z :=
  OFF (constsOffset s) (hasConsts s) sizeof_ConstArray.
Definition trynotesOffset (s : JSScript) : Z :=
  OFF (objectsOffset s) (hasObjects s) sizeof_ObjectArray.
Definition scopeNotesOffset (s : JSScript) : Z :=
  OFF (trynotesOffset s) (hasTrynotes s) sizeof_TryNoteArray.
Definition yieldAndAwaitOffsetsOffset (s : JSScript) : Z :=
  OFF (scopeNotesOffset s) (hasScopeNotes s) sizeof_ScopeNoteArray.
(** What the spec says of two consecutive offsets: the next one is the
    previous one plus the header size exactly when the previous array is
    present, and the previous one itself when it is absent. *)
Definition offset_follows (prev next : Z) (present : bool) (sizeof_t : Z) : Prop :=
  (next = wrap_size (prev + sizeof_t) ↔ present = true) ∧
  (present = false → next = prev).

End Offsets.

(** *** Headers of the trailing arrays (lines 2404-2432)

    [data] is the member of that name, the address of the trailing
    storage. *)

Section RawArrays.
Context `{abi : ABI}.

Definition constsRaw (s : JSScript) (data : Z) : option Z :=
  MOZ_ASSERT (hasConsts s);;
  Some (data + constsOffset s).

Definition objectsRaw (s : JSScript) (data : Z) : option Z :=
  MOZ_ASSERT (hasObjects s);;
  Some (data + objectsOffset s).

Definition scopesRaw (s : JSScript) (data : Z) : Z :=
  data + scopesOffset s.

Definition trynotesRaw (s : JSScript) (data : Z) : option Z :=
  MOZ_ASSERT (hasTrynotes s);;
  Some (data + trynotesOffset s).

Definition scopeNotesRaw (s : JSScript) (data : Z) : option Z :=
  MOZ_ASSERT (hasScopeNotes s);;
  Some (data + scopeNotesOffset s).

Definition yieldAndAwaitOffsetsRaw (s : JSScript) (data : Z) : option Z :=
  MOZ_ASSERT (hasYieldAndAwaitOffsets s);;
  Some (data + yieldAndAwaitOffsetsOffset s).

End RawArrays.

(** *** Eval cache membership (lines 1907-1928) *)

Definition cacheForEval (s : JSScript) : option JSScript :=
  MOZ_ASSERT (isActiveEval s);;
  MOZ_ASSERT (negb (isCachedEval s));;
  let b1 := with_isActiveEval (bitFields_ s) false in
  let b2 := with_isCachedEval b1 true in
  (* "So just pretend like we never ran this script." *)
  let b3 := with_hasRunOnce b2 false in
  Some (with_bitFields s b3).

Definition uncacheForEval (s : JSScript) : option JSScript :=
  MOZ_ASSERT (isCachedEval s);;
  MOZ_ASSERT (negb (isActiveEval s));;
  let b1 := with_isCachedEval (bitFields_ s) false in
  let b2 := with_isActiveEval b1 true in
  Some (with_bitFields s b2).

Definition setActiveEval (s : JSScript) : JSScript :=
  with_bitFields s (with_isActiveEval (bitFields_ s) true).

(** The member functions of the header that write [isActiveEval_] or
    [isCachedEval_]. *)
Inductive EvalOp := SetActiveEval | CacheForEval | UncacheForEval.

Definition eval_step (s : JSScript) (op : EvalOp) : option JSScript :=
  match op with
  | SetActiveEval => Some (setActiveEval s)
  | CacheForEval => cacheForEval s
  | UncacheForEval => uncacheForEval s
  end.

Fixpoint eval_run (s : JSScript) (ops : list EvalOp) : option JSScript :=
  match ops with
  | [] => Some s
  | op :: ops' => s' ← eval_step s op; eval_run s' ops'
  end.

(** A script as the constructor leaves it: the bit-fields are
    brace-initialised to zero (lines 1534-1538) and only flags taken from
    the compile options are assigned afterwards. *)
Definition newly_constructed (s : JSScript) : Prop :=
  isActiveEval s = false ∧ isCachedEval s = false.

(** States that a sequence of the header's eval-flag operations reaches
    without tripping an assertion. *)
Definition eval_reachable (s : JSScript) : Prop :=
  ∃ s0 ops, newly_constructed s0 ∧ eval_run s0 ops = Some s.

(** The same, with [setActiveEval] applied only to scripts that are not
    in the eval cache. *)
Definition eval_step_disciplined (s : JSScript) (op : EvalOp) : option JSScript :=
  match op with
  | SetActiveEval => MOZ_ASSERT (negb (isCachedEval s));; Some (setActiveEval s)
  | _ => eval_step s op
  end.

Fixpoint eval_run_disciplined (s : JSScript) (ops : list EvalOp) : option JSScript :=
  match ops with
  | [] => Some s
  | op :: ops' => s' ← eval_step_disciplined s op; eval_run_disciplined s' ops'
  end.

(** *** Tier slots (lines 55-59, 2096-2136) *)

Definition ION_DISABLED_SCRIPT : Z := 1.
Definition ION_COMPILING_SCRIPT : Z := 2.
Definition ION_PENDING_SCRIPT : Z := 3.
Definition BASELINE_DISABLED_SCRIPT : Z := 1.

Definition hasIonScript (s : JSScript) : option bool :=
  let res := ptr_bool (ion s) && negb (ion s =? ION_DISABLED_SCRIPT) &&
             negb (ion s =? ION_COMPILING_SCRIPT) &&
             negb (ion s =? ION_PENDING_SCRIPT) in
  MOZ_ASSERT_IF res (ptr_bool (baseline s));;
  Some res.

Definition hasAnyIonScript (s : JSScript) : option bool := hasIonScript s.

Definition canIonCompile (s : JSScript) : bool :=
  negb (ion s =? ION_DISABLED_SCRIPT).

Definition isIonCompilingOffThread (s : JSScript) : bool :=
  ion s =? ION_COMPILING_SCRIPT.

Definition hasBaselineScript (s : JSScript) : option bool :=
  let res := ptr_bool (baseline s) && negb (baseline s =? BASELINE_DISABLED_SCRIPT) in
  MOZ_ASSERT_IF (negb res)
    (negb (ptr_bool (ion s)) || (ion s =? ION_DISABLED_SCRIPT));;
  Some res.

Definition canBaselineCompile (s : JSScript) : bool :=
  negb (baseline s =? BASELINE_DISABLED_SCRIPT).

(** *** Relazification (lines 2084-2086, 2157-2163) *)

Definition negM (a : option bool) : option bool := negb <$> a.

Definition isRelazifiable (s : JSScript) : option bool :=
  Some (selfHosted s || ptr_bool (lazyScript s)) <&&>
  Some (negb (hasInnerFunctions_ (bitFields_ s))) <&&>
  Some (negb (ptr_bool (types_ s))) <&&>
  Some (negb (isGenerator s)) <&&> Some (negb (isAsync s)) <&&>
  Some (negb (isDefaultClassConstructor s)) <&&>
  negM (hasBaselineScript s) <&&> negM (hasAnyIonScript s) <&&>
  Some (negb (doNotRelazify_ (bitFields_ s))).

(** *** Tier-state transitions

    Modelled from the spec: the tier-state transitions of section 4.3
    ([markCompiling], [attach], [disable], [markPendingLink],
    [linkPending], [detachOptimizing]).  The header only declares the two
    writers of the slots, [setIonScript] and [setBaselineScript] (lines
    2123 and 2137); their bodies are not part of it.  Each transition
    writes the slot of the tier it names, with the sentinels of lines
    55-59, and does nothing else.  The one transition the spec lets fail
    is the attachment of the optimizing tier: "attaching the optimizing
    tier before the baseline tier is attached fails with an ordering
    error" (section 8).  [linkPending] wires the pending optimizing code
    in, so it is an attachment of the optimizing tier.  "Invalidation
    ([detachOptimizing()]) always succeeds and reverts to baseline-only;
    it does not touch the baseline slot".  The spec states no condition
    for [markCompiling], [disable], [markPendingLink] or the attachment
    of the baseline tier, and none is modelled: a reading that restricts
    them reaches fewer states.  The header reserves no compiling sentinel
    for the baseline slot (baseline compilation is synchronous, section
    5), so [markCompiling Baseline] leaves both slots as they are. *)













(** *** Debugger state

    The two bit-fields that record debugger interest in a script:
    [hasDebugScript_] (breakpoints or step mode, line 2583) and
    [hideScriptFromDebugger_] (the onNewScript hook is still to be
    called, lines 1670-1671). *)

Definition with_debugger_flags (s : JSScript) (hasDebugScript hide : bool) : JSScript :=
  with_bitFields s
    {| hasArrayBits_ := hasArrayBits_ (bitFields_ s);
       selfHosted_ := selfHosted_ (bitFields_ s);
       treatAsRunOnce_ := treatAsRunOnce_ (bitFields_ s);
       hasRunOnce_ := hasRunOnce_ (bitFields_ s);
       isActiveEval_ := isActiveEval_ (bitFields_ s);
       isCachedEval_ := isCachedEval_ (bitFields_ s);
       hasScriptCounts_ := hasScriptCounts_ (bitFields_ s);
       hasDebugScript_ := hasDebugScript;
       doNotRelazify_ := doNotRelazify_ (bitFields_ s);
       hasInnerFunctions_ := hasInnerFunctions_ (bitFields_ s);
       isDefaultClassConstructor_ := isDefaultClassConstructor_ (bitFields_ s);
       isGenerator_ := isGenerator_ (bitFields_ s);
       isAsync_ := isAsync_ (bitFields_ s);
       hideScriptFromDebugger_ := hide |}.

Definition clearHideScriptFromDebugger (s : JSScript) : JSScript :=
  with_debugger_flags s (hasDebugScript_ (bitFields_ s)) false.

Definition setLazyScript (s : JSScript) (lazy : Z) : JSScript :=
  {| types_ := types_ s; ion := ion s; baseline := baseline s;
     lazyScript := lazy; bitFields_ := bitFields_ s |}.

(** *** Generator and async kind, relazification veto (lines 1987-2009,
    2084-2094) *)

Definition with_isGenerator (b : BitFields) (v : bool) : BitFields :=
  {| hasArrayBits_ := hasArrayBits_ b;
     selfHosted_ := selfHosted_ b;
     treatAsRunOnce_ := treatAsRunOnce_ b;
     hasRunOnce_ := hasRunOnce_ b;
     isActiveEval_ := isActiveEval_ b;
     isCachedEval_ := isCachedEval_ b;
     hasScriptCounts_ := hasScriptCounts_ b;
     hasDebugScript_ := hasDebugScript_ b;
     doNotRelazify_ := doNotRelazify_ b;
     hasInnerFunctions_ := hasInnerFunctions_ b;
     isDefaultClassConstructor_ := isDefaultClassConstructor_ b;
     isGenerator_ := v;
     isAsync_ := isAsync_ b;
     hideScriptFromDebugger_ := hideScriptFromDebugger_ b |}.

Definition with_isAsync (b : BitFields) (v : bool) : BitFields :=
  {| hasArrayBits_ := hasArrayBits_ b;
     selfHosted_ := selfHosted_ b;
     treatAsRunOnce_ := treatAsRunOnce_ b;
     hasRunOnce_ := hasRunOnce_ b;
     isActiveEval_ := isActiveEval_ b;
     isCachedEval_ := isCachedEval_ b;
     hasScriptCounts_ := hasScriptCounts_ b;
     hasDebugScript_ := hasDebugScript_ b;
     doNotRelazify_ := doNotRelazify_ b;
     hasInnerFunctions_ := hasInnerFunctions_ b;
     isDefaultClassConstructor_ := isDefaultClassConstructor_ b;
     isGenerator_ := isGenerator_ b;
     isAsync_ := v;
     hideScriptFromDebugger_ := hideScriptFromDebugger_ b |}.

Definition with_doNotRelazify (b : BitFields) (v : bool) : BitFields :=
  {| hasArrayBits_ := hasArrayBits_ b;
     selfHosted_ := selfHosted_ b;
     treatAsRunOnce_ := treatAsRunOnce_ b;
     hasRunOnce_ := hasRunOnce_ b;
     isActiveEval_ := isActiveEval_ b;
     isCachedEval_ := isCachedEval_ b;
     hasScriptCounts_ := hasScriptCounts_ b;
     hasDebugScript_ := hasDebugScript_ b;
     doNotRelazify_ := v;
     hasInnerFunctions_ := hasInnerFunctions_ b;
     isDefaultClassConstructor_ := isDefaultClassConstructor_ b;
     isGenerator_ := isGenerator_ b;
     isAsync_ := isAsync_ b;
     hideScriptFromDebugger_ := hideScriptFromDebugger_ b |}.

Definition with_hasInnerFunctions (b : BitFields) (v : bool) : BitFields :=
  {| hasArrayBits_ := hasArrayBits_ b;
     selfHosted_ := selfHosted_ b;
     treatAsRunOnce_ := treatAsRunOnce_ b;
     hasRunOnce_ := hasRunOnce_ b;
     isActiveEval_ := isActiveEval_ b;
     isCachedEval_ := isCachedEval_ b;
     hasScriptCounts_ := hasScriptCounts_ b;
     hasDebugScript_ := hasDebugScript_ b;
     doNotRelazify_ := doNotRelazify_ b;
     hasInnerFunctions_ := v;
     isDefaultClassConstructor_ := isDefaultClassConstructor_ b;
     isGenerator_ := isGenerator_ b;
     isAsync_ := isAsync_ b;
     hideScriptFromDebugger_ := hideScriptFromDebugger_ b |}.

(** [enum class GeneratorKind : bool] and [enum class FunctionAsyncKind :
    bool] (lines 1248-1249). *)
Inductive GeneratorKind := NotGenerator | Generator.
Inductive FunctionAsyncKind := SyncFunction | AsyncFunction.

Definition is_Generator (kind : GeneratorKind) : bool :=
  match kind with Generator => true | NotGenerator => false end.

Definition is_AsyncFunction (kind : FunctionAsyncKind) : bool :=
  match kind with AsyncFunction => true | SyncFunction => false end.

Definition generatorKind (s : JSScript) : GeneratorKind :=
  if isGenerator_ (bitFields_ s) then Generator else NotGenerator.

Definition setGeneratorKind (s : JSScript) (kind : GeneratorKind) : option JSScript :=
  (* A script only gets its generator kind set as part of initialization,
     so it can only transition from not being a generator. *)
  MOZ_ASSERT (negb (isGenerator s));;
  Some (with_bitFields s (with_isGenerator (bitFields_ s) (is_Generator kind))).

Definition asyncKind (s : JSScript) : FunctionAsyncKind :=
  if isAsync_ (bitFields_ s) then AsyncFunction else SyncFunction.

Definition setAsyncKind (s : JSScript) (kind : FunctionAsyncKind) : JSScript :=
  with_bitFields s (with_isAsync (bitFields_ s) (is_AsyncFunction kind)).

Definition setDoNotRelazify (s : JSScript) (b : bool) : JSScript :=
  with_bitFields s (with_doNotRelazify (bitFields_ s) b).

Definition setHasInnerFunctions (s : JSScript) (b : bool) : JSScript :=
  with_bitFields s (with_hasInnerFunctions (bitFields_ s) b).

Fixpoint setGeneratorKind_run (s : JSScript) (kinds : list GeneratorKind) :
    option JSScript :=
  match kinds with
  | [] => Some s
  | kind :: kinds' => s' ← setGeneratorKind s kind; setGeneratorKind_run s' kinds'
  end.

(** *** Accessors of the attached code (lines 2113-2119, 2133-2136) *)

Definition ionScript (s : JSScript) : option Z :=
  b ← hasIonScript s; MOZ_ASSERT b;; Some (ion s).

Definition baselineScript (s : JSScript) : option Z :=
  b ← hasBaselineScript s; MOZ_ASSERT b;; Some (baseline s).

(** *** Sample scripts *)

Definition zero_bits : BitFields :=
  {| hasArrayBits_ := 0; selfHosted_ := false; treatAsRunOnce_ := false;
     hasRunOnce_ := false; isActiveEval_ := false; isCachedEval_ := false;
     hasScriptCounts_ := false; hasDebugScript_ := false;
     doNotRelazify_ := false; hasInnerFunctions_ := false;
     isDefaultClassConstructor_ := false; isGenerator_ := false;
     isAsync_ := false; hideScriptFromDebugger_ := false |}.

(** A script as the member initialisers leave it. *)
Definition new_script : JSScript :=
  {| types_ := nullptr; ion := nullptr; baseline := nullptr;
     lazyScript := nullptr; bitFields_ := zero_bits |}.

(** A script with a constants array and a try-note array. *)
Definition script_with_consts_and_trynotes : JSScript :=
  setHasArray (setHasArray new_script CONSTS) TRYNOTES.

(** A lazily compiled function's script on which the debugger has set a
    breakpoint and whose onNewScript hook is still outstanding. *)
Definition script_with_debugger_hooks : JSScript :=
  with_debugger_flags (setLazyScript new_script 4096) true true.

End JSScript.

(** ** Bytecode addresses of a script (lines 1740-1782)

    [scriptData_] is null ([None]) or points to a block; a block is given
    by the address of its payload and its contents.  A [jsbytecode] is
    one byte, so a program counter is a byte address. *)

Module ScriptCode.

Definition ScriptData : Type := option (Z * SharedScriptData.SharedScriptData).

Section Code.
Context `{abi : ABI}.

Definition code (scriptData_ : ScriptData) : Z :=
  match scriptData_ with
  | None => nullptr
  | Some (data_addr, d) => SharedScriptData.code data_addr d
  end.

Definition isUncompleted (scriptData_ : ScriptData) : bool :=
  negb (ptr_bool (code scriptData_)).

Definition length (scriptData_ : ScriptData) : option Z :=
  MOZ_ASSERT (bool_decide (is_Some scriptData_));;
  match scriptData_ with
  | Some (_, d) => Some (SharedScriptData.codeLength d)
  | None => None
  end.

Definition codeEnd (scriptData_ : ScriptData) : option Z :=
  n ← length scriptData_; Some (code scriptData_ + n).

Definition containsPC (scriptData_ : ScriptData) (pc : Z) : option bool :=
  Some (code scriptData_ <=? pc) <&&>
  (e ← codeEnd scriptData_; Some (pc <? e)).

Definition pcToOffset (scriptData_ : ScriptData) (pc : Z) : option Z :=
  b ← containsPC scriptData_ pc; MOZ_ASSERT b;;
  Some (wrap_size (pc - code scriptData_)).

Definition offsetToPC (scriptData_ : ScriptData) (offset : Z) : option Z :=
  n ← length scriptData_; MOZ_ASSERT (offset <? n);;
  Some (code scriptData_ + offset).

End Code.

End ScriptCode.

(** ** Warm-up counters of a script (lines 1498-1510, 2331-2339) *)

Module WarmUp.

Record Counters := mkCounters {
  warmUpCount : Z;
  warmUpResetCount : Z
}.

Definition wrap16 (z : Z) : Z := z mod 2 ^ 16.

Definition getWarmUpCount (c : Counters) : Z := warmUpCount c.

(** [warmUpCount += amount]; the new value is returned. *)
Definition incWarmUpCounter (c : Counters) (amount : Z) : Z * Counters :=
  let v := wrap32 (warmUpCount c + amount) in
  (v, {| warmUpCount := v; warmUpResetCount := warmUpResetCount c |}).

Definition getWarmUpResetCount (c : Counters) : Z := warmUpResetCount c.

(** [warmUpResetCount += amount] on a [uint16_t]. *)
Definition incWarmUpResetCounter (c : Counters) (amount : Z) : Z * Counters :=
  let v := wrap16 (warmUpResetCount c + amount) in
  (v, {| warmUpCount := warmUpCount c; warmUpResetCount := v |}).

Definition resetWarmUpResetCounter (c : Counters) : Counters :=
  {| warmUpCount := warmUpCount c; warmUpResetCount := 0 |}.

(** [incWarmUpResetCounter(); warmUpCount = 0;] *)
Definition resetWarmUpCounter (c : Counters) : Counters :=
  let c1 := snd (incWarmUpResetCounter c 1) in
  {| warmUpCount := 0; warmUpResetCount := warmUpResetCount c1 |}.

End WarmUp.

(** * Properties *)

Import JSScript.

(** ** Assertions and machine arithmetic *)

Lemma MOZ_ASSERT_Some b u : MOZ_ASSERT b = Some u ↔ b = true.
Proof. destruct b, u; simpl; split; congruence. Qed.

Lemma andM_true a b : a <&&> b = Some true ↔ a = Some true ∧ b = Some true.
Proof.
  unfold andM. destruct a as [[|]|]; simpl; intuition congruence.
Qed.

Lemma LP64_ok : @abi_ok LP64.
Proof. unfold abi_ok, sizeof_ok; simpl; lia. Qed.

Lemma wrap_size_range `{ABI} z : 0 < size_t_bits → 0 ≤ wrap_size z < 2 ^ size_t_bits.
Proof. intros Hb. unfold wrap_size. apply Z.mod_pos_bound. apply Z.pow_pos_nonneg; lia. Qed.

Lemma wrap_size_add_ne `{ABI} a n :
  0 < size_t_bits → 0 ≤ a < 2 ^ size_t_bits → sizeof_ok n →
  wrap_size (a + n) ≠ a.
Proof.
  intros Hb Ha [Hn1 Hn2] Heq. unfold wrap_size in Heq.
  assert (Hp : 0 < 2 ^ size_t_bits) by (apply Z.pow_pos_nonneg; lia).
  destruct (Z_lt_ge_dec (a + n) (2 ^ size_t_bits)) as [Hlt|Hge].
  - rewrite Z.mod_small in Heq by lia. lia.
  - assert (Hm : (a + n) mod 2 ^ size_t_bits = a + n - 2 ^ size_t_bits).
    { symmetry. apply (Z.mod_unique_pos _ _ 1); lia. }
    lia.
Qed.

(** ** Trailing-array offsets *)

Section OffsetFacts.
Context `{abi : ABI}.

Lemma OFF_range prev present size :
  0 < size_t_bits → 0 ≤ OFF prev present size < 2 ^ size_t_bits.
Proof. intros Hb. unfold OFF. by apply wrap_size_range. Qed.

Lemma OFF_follows prev present size :
  0 < size_t_bits → 0 ≤ prev < 2 ^ size_t_bits → sizeof_ok size →
  offset_follows prev (OFF prev present size) present size.
Proof.
  intros Hb Hprev Hsz. unfold offset_follows, OFF.
  assert (Hid : wrap_size (prev + 0) = prev).
  { unfold wrap_size. rewrite Z.add_0_r. apply Z.mod_small. lia. }
  destruct present; simpl.
  - split; [tauto | discriminate].
  - rewrite Hid. split; [|done]. split; [|discriminate].
    intros Heq. exfalso. by eapply wrap_size_add_ne.
Qed.

Lemma constsOffset_range s : 0 < size_t_bits → 0 ≤ constsOffset s < 2 ^ size_t_bits.
Proof. intros Hb. unfold constsOffset. by apply wrap_size_range. Qed.

(** C5. For every value of the presence bitmask: [scopesOffset] is 0,
    [constsOffset] is [scopesOffset + sizeof(ScopeArray)], every later
    offset is its predecessor's offset plus the predecessor's header size
    exactly when the predecessor is present (and the predecessor's offset
    when it is absent); hence two scripts that agree on the presence bits
    of the arrays before array N have the same offset for array N. *)
Theorem trailing_array_offsets (s : JSScript) :
  abi_ok →
  scopesOffset s = 0 ∧
  constsOffset s = wrap_size (scopesOffset s + sizeof_ScopeArray) ∧
  offset_follows (constsOffset s) (objectsOffset s) (hasConsts s) sizeof_ConstArray ∧
  offset_follows (objectsOffset s) (trynotesOffset s) (hasObjects s) sizeof_ObjectArray ∧
  offset_follows (trynotesOffset s) (scopeNotesOffset s) (hasTrynotes s) sizeof_TryNoteArray ∧
  offset_follows (scopeNotesOffset s) (yieldAndAwaitOffsetsOffset s) (hasScopeNotes s)
    sizeof_ScopeNoteArray ∧
  (∀ s', scopesOffset s' = scopesOffset s ∧ constsOffset s' = constsOffset s) ∧
  (∀ s', hasConsts s' = hasConsts s → objectsOffset s' = objectsOffset s) ∧
  (∀ s', hasConsts s' = hasConsts s → hasObjects s' = hasObjects s →
         trynotesOffset s' = trynotesOffset s) ∧
  (∀ s', hasConsts s' = hasConsts s → hasObjects s' = hasObjects s →
         hasTrynotes s' = hasTrynotes s → scopeNotesOffset s' = scopeNotesOffset s) ∧
  (∀ s', hasConsts s' = hasConsts s → hasObjects s' = hasObjects s →
         hasTrynotes s' = hasTrynotes s → hasScopeNotes s' = hasScopeNotes s →
         yieldAndAwaitOffsetsOffset s' = yieldAndAwaitOffsetsOffset s).
Proof.
  intros (Hb & _ & _ & Hc & Ho & Ht & Hn).
  split; [done|]. split; [done|].
  split. { apply OFF_follows; [done | by apply constsOffset_range | done]. }
  split. { apply OFF_follows; [done | by apply OFF_range | done]. }
  split. { apply OFF_follows; [done | by apply OFF_range | done]. }
  split. { apply OFF_follows; [done | by apply OFF_range | done]. }
  split; [done|].
  split. { intros s' H1. unfold objectsOffset, constsOffset, scopesOffset. by rewrite H1. }
  split.
  { intros s' H1 H2.
    unfold trynotesOffset, objectsOffset, constsOffset, scopesOffset.
    by rewrite H1, H2. }
  split.
  { intros s' H1 H2 H3.
    unfold scopeNotesOffset, trynotesOffset, objectsOffset, constsOffset, scopesOffset.
    by rewrite H1, H2, H3. }
  intros s' H1 H2 H3 H4.
  unfold yieldAndAwaitOffsetsOffset, scopeNotesOffset, trynotesOffset,
    objectsOffset, constsOffset, scopesOffset.
  by rewrite H1, H2, H3, H4.
Qed.

End OffsetFacts.

Lemma trailing_array_offsets_witness :
  @abi_ok LP64 ∧
  @constsOffset LP64 script_with_consts_and_trynotes = 16 ∧
  @objectsOffset LP64 script_with_consts_and_trynotes = 32 ∧
  @trynotesOffset LP64 script_with_consts_and_trynotes = 32 ∧
  @scopeNotesOffset LP64 script_with_consts_and_trynotes = 48 ∧
  @yieldAndAwaitOffsetsOffset LP64 script_with_consts_and_trynotes = 48.
Proof.
  split; [exact LP64_ok|].
  destruct (@trailing_array_offsets LP64 script_with_consts_and_trynotes LP64_ok)
    as (_ & Hc & [Hco _] & [_ Hob] & [Htr _] & [_ Hsn] & _).
  assert (H1 : @constsOffset LP64 script_with_consts_and_trynotes = 16).
  { rewrite Hc. reflexivity. }
  assert (H2 : @objectsOffset LP64 script_with_consts_and_trynotes = 32).
  { rewrite (proj2 Hco eq_refl), H1. reflexivity. }
  assert (H3 : @trynotesOffset LP64 script_with_consts_and_trynotes = 32).
  { rewrite (Hob eq_refl). exact H2. }
  assert (H4 : @scopeNotesOffset LP64 script_with_consts_and_trynotes = 48).
  { rewrite (proj2 Htr eq_refl), H3. reflexivity. }
  split; [exact H1|]. split; [exact H2|]. split; [exact H3|].
  split; [exact H4|]. rewrite (Hsn eq_refl). exact H4.
Defined.

(** ** Eval-cache flags *)

Lemma cacheForEval_Some s s' :
  cacheForEval s = Some s' ↔
  isActiveEval s = true ∧ isCachedEval s = false ∧
  s' = with_bitFields s
         (with_hasRunOnce
            (with_isCachedEval (with_isActiveEval (bitFields_ s) false) true) false).
Proof.
  unfold cacheForEval.
  destruct (isActiveEval s), (isCachedEval s); simpl; intuition congruence.
Qed.

Lemma uncacheForEval_Some s s' :
  uncacheForEval s = Some s' ↔
  isCachedEval s = true ∧ isActiveEval s = false ∧
  s' = with_bitFields s
         (with_isActiveEval (with_isCachedEval (bitFields_ s) false) true).
Proof.
  unfold uncacheForEval.
  destruct (isActiveEval s), (isCachedEval s); simpl; intuition congruence.
Qed.

Lemma eval_step_disciplined_exclusive s op s' :
  isActiveEval s && isCachedEval s = false →
  eval_step_disciplined s op = Some s' →
  isActiveEval s' && isCachedEval s' = false.
Proof.
  intros Hex. destruct op; simpl.
  - destruct (isCachedEval s) eqn:Hc; simpl; [discriminate|].
    intros [= <-]. unfold isActiveEval, isCachedEval in *. simpl.
    by rewrite Hc.
  - intros (_ & _ & ->)%cacheForEval_Some. reflexivity.
  - intros (_ & _ & ->)%uncacheForEval_Some. reflexivity.
Qed.

Lemma eval_run_disciplined_exclusive ops : ∀ s s',
  isActiveEval s && isCachedEval s = false →
  eval_run_disciplined s ops = Some s' →
  isActiveEval s' && isCachedEval s' = false.
Proof.
  induction ops as [|op ops IH]; intros s s' Hex; simpl.
  - by intros [= <-].
  - destruct (eval_step_disciplined s op) as [s1|] eqn:Hstep; simpl; [|discriminate].
    apply IH. by eapply eval_step_disciplined_exclusive.
Qed.

(** C10, as the code has it.  [cacheForEval] runs exactly when the
    script is active and not cached, and then clears the active flag,
    sets the cached flag and resets [hasRunOnce]; [uncacheForEval] runs
    exactly when the script is cached and not active and swaps the two
    flags back, leaving [hasRunOnce] alone; each of them therefore ends
    in a state where the flags are not both set, and the flags are never
    both set in a state reached from a new script by [cacheForEval],
    [uncacheForEval] and [setActiveEval] on scripts that are not cached. *)
Theorem eval_cache_flags :
  (∀ s, is_Some (cacheForEval s) ↔ isActiveEval s = true ∧ isCachedEval s = false) ∧
  (∀ s s', cacheForEval s = Some s' →
     isActiveEval s' = false ∧ isCachedEval s' = true ∧ hasRunOnce s' = false) ∧
  (∀ s, is_Some (uncacheForEval s) ↔ isCachedEval s = true ∧ isActiveEval s = false) ∧
  (∀ s s', uncacheForEval s = Some s' →
     isActiveEval s' = true ∧ isCachedEval s' = false ∧ hasRunOnce s' = hasRunOnce s) ∧
  (∀ s s', cacheForEval s = Some s' →
     uncacheForEval s' =
       Some (with_bitFields s (with_hasRunOnce (bitFields_ s) false))) ∧
  (∀ s0 ops s, newly_constructed s0 → eval_run_disciplined s0 ops = Some s →
     isActiveEval s && isCachedEval s = false).
Proof.
  split.
  { intros s. split.
    - intros [s' Hs']. apply cacheForEval_Some in Hs'. tauto.
    - intros [H1 H2]. eexists. apply cacheForEval_Some. eauto. }
  split.
  { intros s s' (_ & _ & ->)%cacheForEval_Some. done. }
  split.
  { intros s. split.
    - intros [s' Hs']. apply uncacheForEval_Some in Hs'. tauto.
    - intros [H1 H2]. eexists. apply uncacheForEval_Some. eauto. }
  split.
  { intros s s' (_ & _ & ->)%uncacheForEval_Some. done. }
  split.
  { intros s s' (Ha & Hc & ->)%cacheForEval_Some.
    apply uncacheForEval_Some. split; [done|]. split; [done|].
    destruct s as [t i b l [? ? ? ? ? ? ? ? ? ? ? ? ? ?]].
    unfold isActiveEval, isCachedEval in *. simpl in *. by subst. }
  intros s0 ops s [Ha Hc] Hrun.
  eapply eval_run_disciplined_exclusive; [|exact Hrun].
  by rewrite Ha.
Qed.

Lemma eval_cache_flags_witness :
  ∃ s, eval_run_disciplined new_script [SetActiveEval; CacheForEval; UncacheForEval]
         = Some s ∧
       isActiveEval s && isCachedEval s = false.
Proof.
  destruct eval_cache_flags as (_ & _ & _ & _ & _ & Hrun).
  eexists. split; [reflexivity|].
  apply (Hrun new_script [SetActiveEval; CacheForEval; UncacheForEval]);
    [done | reflexivity].
Defined.

(** [setActiveEval] asserts nothing, so applied to a cached script it
    leaves both flags set: the state below is reached from a new script
    by three calls of the header's own member functions. *)
Lemma eval_flags_both_set :
  newly_constructed new_script ∧
  ∃ s, eval_run new_script [SetActiveEval; CacheForEval; SetActiveEval] = Some s ∧
       eval_reachable s ∧ isActiveEval s = true ∧ isCachedEval s = true.
Proof.
  split; [done|]. eexists. split; [reflexivity|].
  split; [|done].
  exists new_script, [SetActiveEval; CacheForEval; SetActiveEval]. done.
Qed.

(** ** Tier slots *)

Ltac tier_cases s :=
  unfold hasAnyIonScript, hasIonScript, hasBaselineScript, MOZ_ASSERT_IF, MOZ_ASSERT,
    ptr_bool, nullptr, ION_DISABLED_SCRIPT, ION_COMPILING_SCRIPT,
    ION_PENDING_SCRIPT, BASELINE_DISABLED_SCRIPT in *;
  destruct (Z.eqb_spec (ion s) 0), (Z.eqb_spec (ion s) 1),
    (Z.eqb_spec (ion s) 2), (Z.eqb_spec (ion s) 3),
    (Z.eqb_spec (baseline s) 0), (Z.eqb_spec (baseline s) 1);
  simpl in *; try congruence; try lia.

(** What the two accessors return, assertions included. *)
Lemma hasIonScript_true s :
  hasIonScript s = Some true ↔
  ion s ≠ nullptr ∧ ion s ≠ ION_DISABLED_SCRIPT ∧ ion s ≠ ION_COMPILING_SCRIPT ∧
  ion s ≠ ION_PENDING_SCRIPT ∧ baseline s ≠ nullptr.
Proof. split; [intros H | intros (?&?&?&?&?)]; tier_cases s; repeat split; lia. Qed.

Lemma hasIonScript_false s :
  hasIonScript s = Some false ↔
  ion s = nullptr ∨ ion s = ION_DISABLED_SCRIPT ∨ ion s = ION_COMPILING_SCRIPT ∨
  ion s = ION_PENDING_SCRIPT.
Proof. split; [intros H | intros [?|[?|[?|?]]]]; tier_cases s; tauto. Qed.

Lemma hasBaselineScript_true s :
  hasBaselineScript s = Some true ↔
  baseline s ≠ nullptr ∧ baseline s ≠ BASELINE_DISABLED_SCRIPT.
Proof. split; [intros H | intros (?&?)]; tier_cases s; split; lia. Qed.

Lemma hasBaselineScript_false s :
  hasBaselineScript s = Some false ↔
  (baseline s = nullptr ∨ baseline s = BASELINE_DISABLED_SCRIPT) ∧
  (ion s = nullptr ∨ ion s = ION_DISABLED_SCRIPT).
Proof. split; [intros H | intros ([?|?]&[?|?])]; tier_cases s; split; tauto. Qed.

(** The assertion inside [hasIonScript] only asks for a non-null baseline
    slot; it is the assertion inside [hasBaselineScript] that rules out
    optimized code over a disabled baseline. *)
Lemma hasIonScript_needs_baseline s :
  hasIonScript s = Some true → is_Some (hasBaselineScript s) →
  hasBaselineScript s = Some true.
Proof. intros H [b Hb]. tier_cases s. Qed.








(** Optimized code over a {e disabled} baseline slot passes the assertion
    of [hasIonScript] and trips the one of [hasBaselineScript]. *)
Remark hasIonScript_assert_is_weaker :
  hasIonScript (with_ion (with_baseline new_script BASELINE_DISABLED_SCRIPT) 8192)
    = Some true ∧
  hasBaselineScript (with_ion (with_baseline new_script BASELINE_DISABLED_SCRIPT) 8192)
    = None.
Proof. split; reflexivity. Qed.

(** ** Relazification *)

Lemma negM_true a : negM a = Some true ↔ a = Some false.
Proof. unfold negM. destruct a as [[|]|]; simpl; intuition congruence. Qed.

Lemma Some_negb_true b : Some (negb b) = Some true ↔ b = false.
Proof. destruct b; simpl; intuition congruence. Qed.

Lemma ptr_bool_false p : ptr_bool p = false ↔ p = nullptr.
Proof.
  unfold ptr_bool, nullptr. destruct (Z.eqb_spec p 0); simpl; intuition congruence.
Qed.

Lemma ptr_bool_true p : ptr_bool p = true ↔ p ≠ nullptr.
Proof.
  unfold ptr_bool, nullptr. destruct (Z.eqb_spec p 0); simpl; intuition congruence.
Qed.

(** C3, as the code has it.  [isRelazifiable()] returns true exactly
    when the script is self-hosted or has a lazy script, records no inner
    functions, has no type information, is not a generator, not async,
    not a default class constructor, has neither baseline nor optimizing
    code attached, and relazification is not suppressed.  Debugger state
    is not consulted: changing [hasDebugScript_] or
    [hideScriptFromDebugger_] never changes the answer. *)
Theorem isRelazifiable_iff (s : JSScript) :
  (isRelazifiable s = Some true ↔
     (selfHosted s = true ∨ lazyScript s ≠ nullptr) ∧
     hasInnerFunctions s = false ∧
     types_ s = nullptr ∧
     isGenerator s = false ∧ isAsync s = false ∧
     isDefaultClassConstructor s = false ∧
     hasBaselineScript s = Some false ∧
     hasAnyIonScript s = Some false ∧
     doNotRelazify_ (bitFields_ s) = false) ∧
  (∀ d h, isRelazifiable (with_debugger_flags s d h) = isRelazifiable s).
Proof.
  split; [|done].
  unfold isRelazifiable.
  rewrite !andM_true, !negM_true, !Some_negb_true, ptr_bool_false.
  unfold hasInnerFunctions.
  assert (Hor : Some (selfHosted s || ptr_bool (lazyScript s)) = Some true ↔
                selfHosted s = true ∨ lazyScript s ≠ nullptr).
  { rewrite <- ptr_bool_true.
    destruct (selfHosted s), (ptr_bool (lazyScript s)); simpl; intuition congruence. }
  rewrite Hor. tauto.
Qed.

(** A script with a breakpoint set and its onNewScript hook outstanding
    is nevertheless relazifiable. *)
Lemma relazifiable_with_debugger_hooks :
  isRelazifiable script_with_debugger_hooks = Some true ∧
  hasAnyBreakpointsOrStepMode script_with_debugger_hooks = true ∧
  hideScriptFromDebugger script_with_debugger_hooks = true.
Proof. repeat split. Qed.

(** ** Reference counting *)

Section RefCountFacts.
Context {T : Type} (count : T → Z) (set_count : T → Z → T).
Hypothesis count_set : ∀ obj n, count (set_count obj n) = n.

Lemma wrap32_small z : 0 ≤ z < 2 ^ 32 → wrap32 z = z.
Proof. intros H. unfold wrap32. by apply Z.mod_small. Qed.

Lemma rc_decref_Some h this h' :
  rc_decref count set_count h this = Some h' ↔
  ∃ obj, live h !! this = Some obj ∧ count obj ≠ 0 ∧
    h' = if wrap32 (count obj - 1) =? 0
         then mkRcHeap (delete this (live h)) (this :: freed h)
         else mkRcHeap (<[this := set_count obj (wrap32 (count obj - 1))]> (live h))
                       (freed h).
Proof.
  unfold rc_decref. destruct (live h !! this) as [obj|]; simpl.
  - destruct (Z.eqb_spec (count obj) 0) as [Hz|Hz]; simpl.
    + split; [discriminate|]. intros (o & Ho & Hne & _).
      injection Ho as <-. done.
    + split.
      * intros H. exists obj. split; [done|]. split; [done|].
        destruct (wrap32 (count obj - 1) =? 0); by injection H as <-.
      * intros (o & Ho & _ & ->). injection Ho as <-.
        by destruct (wrap32 (count obj - 1) =? 0).
  - split; [discriminate|]. intros (o & Ho & _). discriminate.
Qed.

Lemma rc_release_contract : release_contract count (rc_decref count set_count).
Proof.
  split.
  { intros h this obj Hl Hz. unfold rc_decref. rewrite Hl. simpl.
    by rewrite Hz. }
  split.
  { intros h this obj Hl H1. eexists. split.
    - apply rc_decref_Some. exists obj. split; [done|]. split; [lia|].
      rewrite H1. reflexivity.
    - split; [apply lookup_delete_eq | done]. }
  split.
  { intros h this obj Hl Hc.
    assert (Hw : wrap32 (count obj - 1) = count obj - 1) by (apply wrap32_small; lia).
    eexists. exists (set_count obj (count obj - 1)). split.
    - apply rc_decref_Some. exists obj. split; [done|]. split; [lia|].
      rewrite Hw. destruct (Z.eqb_spec (count obj - 1) 0); [lia|reflexivity].
    - simpl. split; [apply lookup_insert_eq|]. split; [apply count_set | done]. }
  split.
  { intros h this obj h' Hl (o & Ho & Hne & ->)%rc_decref_Some.
    assert (o = obj) as -> by congruence.
    destruct (Z.eqb_spec (wrap32 (count obj - 1)) 0) as [Hz|Hz]; simpl.
    - split.
      + split; [done|]. split; [apply lookup_delete_eq | done].
      + intros other Hne'. by apply lookup_delete_ne.
    - split.
      + split; [|done]. intros [Hgone _]. simpl in Hgone.
        by rewrite lookup_insert_eq in Hgone.
      + intros other Hne'. by apply lookup_insert_ne. }
  intros h this Hl. unfold rc_decref. by rewrite Hl.
Qed.

(** No sequence of operations frees an object twice. *)
Lemma rc_step_safe h op h' :
  no_double_free h → freed_not_live h →
  rc_step count set_count h op = Some h' →
  no_double_free h' ∧ freed_not_live h'.
Proof.
  intros Hnd Hfl. destruct op as [this obj|this|this]; simpl.
  - unfold rc_create. intros H.
    destruct (bool_decide (live h !! this = None ∧ this ∉ freed h)) eqn:H1;
      [|discriminate].
    injection H as <-. apply bool_decide_eq_true in H1 as [_ H2].
    split; [done|]. intros a Ha. simpl in *.
    rewrite lookup_insert_ne; [by apply Hfl | intros ->; done].
  - unfold rc_incref. destruct (live h !! this) as [obj|] eqn:Hl; [|discriminate].
    simpl. intros [= <-]. split; [done|]. intros a Ha. simpl in *.
    rewrite lookup_insert_ne; [by apply Hfl|].
    intros ->. specialize (Hfl _ Ha). congruence.
  - intros (obj & Hl & Hne & ->)%rc_decref_Some.
    assert (Hnf : this ∉ freed h).
    { intros Hin. specialize (Hfl _ Hin). congruence. }
    destruct (wrap32 (count obj - 1) =? 0).
    + split.
      * unfold no_double_free. simpl. by apply NoDup_cons.
      * intros a Ha. simpl in *. apply elem_of_cons in Ha as [->|Ha].
        -- apply lookup_delete_eq.
        -- rewrite lookup_delete_ne; [by apply Hfl | intros ->; done].
    + split; [done|]. intros a Ha. simpl in *.
      rewrite lookup_insert_ne; [by apply Hfl | intros ->; done].
Qed.

Lemma rc_run_safe ops : ∀ h h',
  no_double_free h → freed_not_live h →
  rc_run count set_count h ops = Some h' →
  no_double_free h' ∧ freed_not_live h'.
Proof.
  induction ops as [|op ops IH]; intros h h' Hnd Hfl; simpl.
  - by intros [= <-].
  - destruct (rc_step count set_count h op) as [h1|] eqn:Hs; simpl; [|discriminate].
    destruct (rc_step_safe _ _ _ Hnd Hfl Hs). by apply IH.
Qed.

Lemma rc_run_app ops1 ops2 h :
  rc_run count set_count h (ops1 ++ ops2) =
  rc_run count set_count h ops1 ≫= λ h1, rc_run count set_count h1 ops2.
Proof.
  revert h. induction ops1 as [|op ops1 IH]; intros h; simpl; [done|].
  destruct (rc_step count set_count h op); simpl; [apply IH | done].
Qed.

Lemma rc_run_increfs k : ∀ m f this obj,
  m !! this = Some obj → 0 ≤ count obj → count obj + Z.of_nat k < 2 ^ 32 →
  ∃ obj', rc_run count set_count (mkRcHeap m f) (replicate k (Incref this)) =
            Some (mkRcHeap (<[this := obj']> m) f) ∧
          count obj' = count obj + Z.of_nat k.
Proof.
  induction k as [|k IH]; intros m f this obj Hl H0 Hk.
  - exists obj. simpl. rewrite insert_id by done. split; [done | lia].
  - simpl. unfold rc_incref. simpl. rewrite Hl. simpl.
    set (obj1 := set_count obj (wrap32 (count obj + 1))).
    assert (Hc1 : count obj1 = count obj + 1).
    { unfold obj1. rewrite count_set. apply wrap32_small. lia. }
    destruct (IH (<[this := obj1]> m) f this obj1) as (obj' & Hrun & Hc);
      [apply lookup_insert_eq | lia | lia |].
    exists obj'. rewrite Hrun, insert_insert_eq. split; [done | lia].
Qed.

Lemma rc_run_cons h op ops :
  rc_run count set_count h (op :: ops) =
  rc_step count set_count h op ≫= λ h1, rc_run count set_count h1 ops.
Proof. reflexivity. Qed.

Lemma rc_run_decrefs k : ∀ m f this obj,
  m !! this = Some obj → count obj = Z.of_nat (S k) → Z.of_nat (S k) < 2 ^ 32 →
  rc_run count set_count (mkRcHeap m f) (replicate (S k) (Decref this)) =
    Some (mkRcHeap (delete this m) (this :: f)).
Proof.
  induction k as [|k IH]; intros m f this obj Hl Hc Hk.
  - simpl. unfold rc_decref. simpl. rewrite Hl. simpl. rewrite Hc. reflexivity.
  - rewrite (replicate_S (S k)), rc_run_cons.
    assert (Hw : wrap32 (count obj - 1) = Z.of_nat (S k)).
    { rewrite Hc. rewrite wrap32_small; lia. }
    assert (Hstep : rc_step count set_count (mkRcHeap m f) (Decref this) =
                    Some (mkRcHeap (<[this := set_count obj (Z.of_nat (S k))]> m) f)).
    { apply rc_decref_Some. exists obj. cbn [live freed].
      split; [done|]. split; [lia|]. rewrite Hw.
      by destruct (Z.eqb_spec (Z.of_nat (S k)) 0); [lia|]. }
    rewrite Hstep. cbn [mbind option_bind].
    rewrite (IH _ f this (set_count obj (Z.of_nat (S k))));
      [| apply lookup_insert_eq | apply count_set | lia].
    by rewrite delete_insert_eq.
Qed.

(** A create/attach/release cycle ends with the heap it started from and
    exactly one deallocation. *)
Lemma rc_cycle_balanced h this obj k :
  live h !! this = None → this ∉ freed h → count obj = 0 →
  (0 < k)%nat → Z.of_nat k < 2 ^ 32 →
  rc_run count set_count h (rc_cycle this obj k) =
    Some (mkRcHeap (live h) (this :: freed h)).
Proof.
  intros Hl Hf Hc Hk Hk32. destruct h as [m f]. simpl in *.
  unfold rc_cycle. cbn [rc_run rc_step]. unfold rc_create. simpl.
  rewrite bool_decide_eq_true_2 by done. simpl.
  rewrite rc_run_app.
  destruct (rc_run_increfs k (<[this := obj]> m) f this obj) as (obj' & Hrun & Hc');
    [apply lookup_insert_eq | lia | lia |].
  rewrite Hrun. simpl. rewrite insert_insert_eq.
  destruct k as [|k]; [lia|].
  rewrite (rc_run_decrefs k _ f this obj'); [| apply lookup_insert_eq | lia | lia].
  rewrite delete_insert_eq. by rewrite delete_id.
Qed.

Lemma rc_cycles_cons c cs :
  rc_cycles (c :: cs) = rc_cycle c.1.1 c.1.2 c.2 ++ rc_cycles (T:=T) cs.
Proof. reflexivity. Qed.

Lemma rc_cycles_balanced cs : ∀ h,
  NoDup (cs.*1.*1) →
  (∀ c, c ∈ cs → live h !! (c.1.1) = None ∧ ((c.1.1) ∉ freed h) ∧ count (c.1.2) = 0 ∧
                 (0 < c.2)%nat ∧ Z.of_nat (c.2) < 2 ^ 32) →
  rc_run count set_count h (rc_cycles cs) =
    Some (mkRcHeap (live h) (reverse (cs.*1.*1) ++ freed h)).
Proof.
  induction cs as [|c cs IH]; intros h Hnd Hall.
  - simpl. by destruct h.
  - rewrite !fmap_cons in Hnd. apply NoDup_cons in Hnd as [Hna Hnd].
    destruct (Hall c) as (Hl & Hf & Hc & Hk & Hk32); [by left|].
    rewrite rc_cycles_cons, rc_run_app, rc_cycle_balanced by done.
    cbn [mbind option_bind].
    rewrite IH; [| done |].
    + cbn [live freed]. rewrite !fmap_cons, reverse_cons, <- app_assoc. done.
    + intros c' Hin. destruct (Hall c') as (Hl' & Hf' & Hc' & Hk' & Hk32'); [by right|].
      cbn [live freed]. split; [done|]. split; [|done].
      intros [Heq|Hin']%elem_of_cons; [|done].
      apply Hna. rewrite <- Heq.
      apply list_elem_of_fmap. exists c'.1. split; [done|].
      apply list_elem_of_fmap. by exists c'.
Qed.

End RefCountFacts.

(** C4. For a source record and for a bytecode block alike: a release
    at count zero is an assertion failure; a release at count one
    destroys the object, once; a release at a larger count leaves it
    alive with the count decremented; a release destroys the object
    exactly when the decremented count is zero, and touches no other
    object; a destroyed object cannot be released again.  Hence no
    sequence of creations, attachments and releases logs the same
    deallocation twice or leaves a freed object live, and any number of
    create/attach/release cycles ends with the live heap it started
    from and one deallocation per cycle. *)
Theorem refcount_destroy_iff_zero :
  release_contract ScriptSource.refs ScriptSource.decref ∧
  release_contract SharedScriptData.refCount_ SharedScriptData.decRefCount ∧
  (∀ ops h h', no_double_free h → freed_not_live h →
     rc_run ScriptSource.refs ScriptSource.with_refs h ops = Some h' →
     no_double_free h' ∧ freed_not_live h') ∧
  (∀ ops h h', no_double_free h → freed_not_live h →
     rc_run SharedScriptData.refCount_ SharedScriptData.with_refCount h ops = Some h' →
     no_double_free h' ∧ freed_not_live h') ∧
  (∀ cs h, NoDup (cs.*1.*1) →
     (∀ c, c ∈ cs → live h !! (c.1.1) = None ∧ ((c.1.1) ∉ freed h) ∧
                    ScriptSource.refs (c.1.2) = 0 ∧
                    (0 < c.2)%nat ∧ Z.of_nat (c.2) < 2 ^ 32) →
     rc_run ScriptSource.refs ScriptSource.with_refs h (rc_cycles cs) =
       Some (mkRcHeap (live h) (reverse (cs.*1.*1) ++ freed h))) ∧
  (∀ cs h, NoDup (cs.*1.*1) →
     (∀ c, c ∈ cs → live h !! (c.1.1) = None ∧ ((c.1.1) ∉ freed h) ∧
                    SharedScriptData.refCount_ (c.1.2) = 0 ∧
                    (0 < c.2)%nat ∧ Z.of_nat (c.2) < 2 ^ 32) →
     rc_run SharedScriptData.refCount_ SharedScriptData.with_refCount h (rc_cycles cs) =
       Some (mkRcHeap (live h) (reverse (cs.*1.*1) ++ freed h))).
Proof.
  split; [by apply rc_release_contract|].
  split; [by apply rc_release_contract|].
  split; [intros ops h h'; apply rc_run_safe|].
  split; [intros ops h h'; apply rc_run_safe|].
  split; intros cs h; by apply rc_cycles_balanced.
Qed.

Lemma source_cycles_addresses n :
  (ScriptSource.source_cycles n).*1.*1 = (λ i : nat, Z.of_nat (S i)) <$> seq 0 n.
Proof.
  unfold ScriptSource.source_cycles. rewrite <- !list_fmap_compose. done.
Qed.

Lemma source_cycles_ok n :
  NoDup ((ScriptSource.source_cycles n).*1.*1) ∧
  (∀ c, c ∈ ScriptSource.source_cycles n →
        live ScriptSource.empty_heap !! (c.1.1) = None ∧
        ((c.1.1) ∉ freed ScriptSource.empty_heap) ∧
        ScriptSource.refs (c.1.2) = 0 ∧ (0 < c.2)%nat ∧ Z.of_nat (c.2) < 2 ^ 32).
Proof.
  split.
  - rewrite source_cycles_addresses. apply NoDup_fmap_2; [|apply NoDup_seq].
    intros i j Hij. lia.
  - intros c (i & -> & _)%list_elem_of_fmap. simpl.
    split; [apply lookup_empty|]. split; [apply not_elem_of_nil|].
    split; [done|]. split; lia.
Qed.

(** Ten thousand cycles from the empty heap: nothing is left live and
    ten thousand deallocations were logged. *)
Lemma refcount_ten_thousand_cycles :
  rc_run ScriptSource.refs ScriptSource.with_refs ScriptSource.empty_heap
    (rc_cycles (ScriptSource.source_cycles (Z.to_nat 10000))) =
  Some (mkRcHeap ∅ (reverse ((ScriptSource.source_cycles (Z.to_nat 10000)).*1.*1) ++ [])).
Proof.
  destruct refcount_destroy_iff_zero as (_ & _ & _ & _ & Hcycles & _).
  destruct (source_cycles_ok (Z.to_nat 10000)) as [Hnd Hall].
  exact (Hcycles (ScriptSource.source_cycles (Z.to_nat 10000)) ScriptSource.empty_heap Hnd Hall).
Defined.

(** ** Source holders *)

Lemma with_refs_id src : ScriptSource.with_refs src (ScriptSource.refs src) = src.
Proof. by destruct src. Qed.

Lemma with_refs_twice src a b :
  ScriptSource.with_refs (ScriptSource.with_refs src a) b = ScriptSource.with_refs src b.
Proof. done. Qed.

(** C9. Resetting a holder to the source it already holds runs without
    assertion failure and leaves the heap (the source's count included),
    the deallocation log and the holder exactly as they were: the
    increment comes first, so the decrement never reaches zero.  The
    holder's own reference is counted ([1 <= refs]) and the counter is
    not at its maximum (the increment does not wrap). *)
Theorem holder_reset_same_source
    (h : RcHeap ScriptSource.ScriptSource)
    (holder : ScriptSource.ScriptSourceHolder) (src : ScriptSource.ScriptSource) :
  ScriptSource.ss holder ≠ nullptr →
  live h !! ScriptSource.ss holder = Some src →
  1 ≤ ScriptSource.refs src →
  ScriptSource.refs src < UINT32_MAX →
  ScriptSource.reset h holder (ScriptSource.ss holder) = Some (h, holder).
Proof.
  intros Hnn Hl H1 Hmax. unfold UINT32_MAX in Hmax.
  unfold ScriptSource.reset.
  rewrite (proj2 (ptr_bool_true _) Hnn).
  unfold ScriptSource.incref, rc_incref. rewrite Hl. cbn [mbind option_bind].
  rewrite wrap32_small by lia.
  unfold ScriptSource.decref, rc_decref. cbn [live freed].
  rewrite lookup_insert_eq. cbn [mbind option_bind ScriptSource.refs ScriptSource.with_refs].
  destruct (Z.eqb_spec (ScriptSource.refs src + 1) 0) as [?|_]; [lia|].
  cbn [negb MOZ_ASSERT mbind option_bind].
  replace (ScriptSource.refs src + 1 - 1) with (ScriptSource.refs src) by lia.
  rewrite wrap32_small by lia.
  destruct (Z.eqb_spec (ScriptSource.refs src) 0) as [?|_]; [lia|].
  rewrite insert_insert_eq, with_refs_twice, with_refs_id.
  rewrite insert_id by done. cbn [mbind option_bind].
  by destruct h, holder.
Qed.

Lemma holder_reset_same_source_witness :
  ScriptSource.reset ScriptSource.one_source_heap (ScriptSource.mkHolder 4096) 4096
  = Some (ScriptSource.one_source_heap, ScriptSource.mkHolder 4096).
Proof.
  apply (holder_reset_same_source ScriptSource.one_source_heap
           (ScriptSource.mkHolder 4096) ScriptSource.held_source).
  - done.
  - reflexivity.
  - simpl. lia.
  - unfold UINT32_MAX. simpl. lia.
Defined.

(** ** Interning of bytecode blocks *)

Section InternFacts.
Import SharedScriptData.
Context `{abi : ABI}.

Lemma ArrayEqual_eq n : ∀ a b : list byte,
  length a = n → length b = n → (ArrayEqual a b n = true ↔ a = b).
Proof.
  induction n as [|n IH]; intros [|x a] [|y b] Ha Hb; simpl in *; try lia.
  - done.
  - rewrite andb_true_iff, IH by lia. split.
    + intros [Hxy ->]. by rewrite (Byte.byte_dec_bl _ _ Hxy).
    + intros [= -> ->]. split; [by apply Byte.byte_dec_lb | done].
Qed.

Lemma ArrayEqual_sym n : ∀ a b, ArrayEqual a b n = ArrayEqual b a n.
Proof.
  induction n as [|n IH]; intros [|x a] [|y b]; simpl; try done.
  rewrite IH. f_equal.
  destruct (Byte.eqb x y) eqn:Hxy, (Byte.eqb y x) eqn:Hyx; try done.
  - apply Byte.byte_dec_bl in Hxy as ->.
    by rewrite Byte.byte_dec_lb in Hyx.
  - apply Byte.byte_dec_bl in Hyx as ->.
    by rewrite Byte.byte_dec_lb in Hxy.
Qed.

Lemma ArrayEqual_trans n : ∀ a b c,
  ArrayEqual a b n = true → ArrayEqual b c n = true → ArrayEqual a c n = true.
Proof.
  induction n as [|n IH]; intros [|x a] [|y b] [|z c]; simpl; try done.
  rewrite !andb_true_iff. intros [Hxy Hab] [Hyz Hbc].
  apply Byte.byte_dec_bl in Hxy as ->. split; [done | by eapply IH].
Qed.

(** What [match] tests, without assuming anything of the payloads. *)
Lemma match_true entry d :
  match_ entry d = true ↔
  natoms entry = natoms d ∧ codeLength entry = codeLength d ∧
  numNotes entry = numNotes d ∧
  ArrayEqual (data entry) (data d) (Z.to_nat (dataLength d)) = true.
Proof.
  unfold match_.
  destruct (Z.eqb_spec (natoms entry) (natoms d)); simpl; [|intuition congruence].
  destruct (Z.eqb_spec (codeLength entry) (codeLength d)); simpl; [|intuition congruence].
  destruct (Z.eqb_spec (numNotes entry) (numNotes d)); simpl; intuition congruence.
Qed.

Lemma dataLength_counts entry d :
  natoms entry = natoms d → codeLength entry = codeLength d →
  numNotes entry = numNotes d → dataLength entry = dataLength d.
Proof.
  unfold dataLength, natoms, codeLength, numNotes. by intros -> -> ->.
Qed.

Lemma match_sym b1 b2 : match_ b1 b2 = true → match_ b2 b1 = true.
Proof.
  rewrite !match_true. intros (H1 & H2 & H3 & H4).
  rewrite (dataLength_counts b1 b2), ArrayEqual_sym by done. done.
Qed.

Lemma match_trans b1 b2 b3 :
  match_ b1 b2 = true → match_ b2 b3 = true → match_ b1 b3 = true.
Proof.
  rewrite !match_true. intros (H1 & H2 & H3 & H4) (H1' & H2' & H3' & H4').
  rewrite (dataLength_counts b2 b3) in H4 by done.
  repeat split; try congruence. by eapply ArrayEqual_trans.
Qed.

(** The count of references plays no part in the comparison. *)
Lemma match_with_refCount_l b1 b2 r : match_ (with_refCount b1 r) b2 = match_ b1 b2.
Proof. done. Qed.

Lemma match_with_refCount_r b1 b2 r : match_ b1 (with_refCount b2 r) = match_ b1 b2.
Proof. done. Qed.

Lemma lookup_Some rt cand e :
  lookup rt cand = Some e →
  e ∈ scriptDataTable rt ∧ ∃ entry, heap rt !! e = Some entry ∧ match_ entry cand = true.
Proof.
  unfold lookup. intros [Hin Hm]%find_some.
  split; [by apply list_elem_of_In|].
  destruct (heap rt !! e) as [entry|]; [by exists entry | done].
Qed.

Lemma lookup_None rt cand e entry :
  lookup rt cand = None → e ∈ scriptDataTable rt → heap rt !! e = Some entry →
  match_ entry cand = false.
Proof.
  unfold lookup. intros Hnone Hin Hl.
  pose proof (find_none _ _ Hnone e (proj1 (list_elem_of_In _ _) Hin)) as Hf.
  simpl in Hf. by rewrite Hl in Hf.
Qed.

Lemma lookup_hit rt cand e entry :
  table_ok rt → e ∈ scriptDataTable rt → heap rt !! e = Some entry →
  match_ entry cand = true → lookup rt cand = Some e.
Proof.
  intros [_ Huniq] Hin Hl Hm.
  destruct (lookup rt cand) as [e'|] eqn:Hlk.
  - apply lookup_Some in Hlk as (Hin' & entry' & Hl' & Hm').
    f_equal. apply (Huniq e' e entry' entry); try done.
    eapply match_trans; [exact Hm' | by apply match_sym].
  - by rewrite (lookup_None rt cand e entry) in Hm.
Qed.

Lemma intern_hit rt e c entry cand :
  table_ok rt → e ∈ scriptDataTable rt → heap rt !! e = Some entry →
  heap rt !! c = Some cand → c ∉ scriptDataTable rt →
  match_ entry cand = true →
  intern rt c =
    Some (e, mkRuntime
               (delete c (<[e := with_refCount entry (wrap32 (refCount_ entry + 1))]>
                            (heap rt)))
               (scriptDataTable rt)).
Proof.
  intros Hok Hin Hl Hc Hnin Hm. unfold intern.
  rewrite Hc. cbn [mbind option_bind].
  rewrite bool_decide_eq_true_2 by done. cbn [MOZ_ASSERT mbind option_bind].
  rewrite (lookup_hit rt cand e entry) by done.
  by rewrite Hl.
Qed.

Lemma intern_table_ok rt c r rt' :
  table_ok rt → intern rt c = Some (r, rt') → table_ok rt'.
Proof.
  intros Hok. pose proof Hok as [Hlive Huniq]. unfold intern.
  destruct (heap rt !! c) as [cand|] eqn:Hc; [|discriminate].
  cbn [mbind option_bind].
  destruct (bool_decide (c ∉ scriptDataTable rt)) eqn:Hnin; [|discriminate].
  apply bool_decide_eq_true in Hnin. cbn [MOZ_ASSERT mbind option_bind].
  destruct (lookup rt cand) as [e|] eqn:Hlk.
  - apply lookup_Some in Hlk as (Hin & entry & Hl & Hm).
    rewrite Hl. cbn [mbind option_bind]. intros [= <- <-].
    assert (Hec : e ≠ c) by (intros ->; done).
    assert (Hget : ∀ x b, x ∈ scriptDataTable rt →
              delete c (<[e := with_refCount entry (wrap32 (refCount_ entry + 1))]>
                          (heap rt)) !! x = Some b →
              ∃ b0 r0, heap rt !! x = Some b0 ∧ b = with_refCount b0 r0).
    { intros x b Hx. rewrite lookup_delete_ne by (intros ->; done).
      destruct (decide (e = x)) as [->|Hne].
      - rewrite lookup_insert_eq. intros [= <-]. eauto.
      - rewrite lookup_insert_ne by done. intros Hb. exists b, (refCount_ b).
        split; [done | by destruct b]. }
    split; cbn [heap scriptDataTable].
    + intros x Hx. rewrite lookup_delete_ne by (intros ->; done).
      destruct (decide (e = x)) as [->|Hne].
      * rewrite lookup_insert_eq. eauto.
      * rewrite lookup_insert_ne by done. by apply Hlive.
    + intros e1 e2 b1 b2 H1 H2 Hb1 Hb2 Hmatch.
      destruct (Hget _ _ H1 Hb1) as (b1' & r1 & Hb1' & ->).
      destruct (Hget _ _ H2 Hb2) as (b2' & r2 & Hb2' & ->).
      rewrite match_with_refCount_l, match_with_refCount_r in Hmatch.
      by apply (Huniq e1 e2 b1' b2').
  - intros [= <- <-]. split; cbn [heap scriptDataTable].
    + intros x [->|Hx]%elem_of_cons.
      * rewrite lookup_insert_eq. eauto.
      * rewrite lookup_insert_ne by (intros ->; done). by apply Hlive.
    + intros e1 e2 b1 b2 [->|H1]%elem_of_cons [->|H2]%elem_of_cons; [done| | |].
      * rewrite lookup_insert_eq, lookup_insert_ne by (intros ->; done).
        intros [= <-] Hb2. rewrite match_with_refCount_l. intros Hm.
        apply match_sym in Hm. by rewrite (lookup_None rt cand e2 b2) in Hm.
      * rewrite lookup_insert_eq, lookup_insert_ne by (intros ->; done).
        intros Hb1 [= <-]. rewrite match_with_refCount_r. intros Hm.
        by rewrite (lookup_None rt cand e1 b1) in Hm.
      * rewrite !lookup_insert_ne by (intros ->; done). by apply Huniq.
Qed.

(** C1. [match] holds exactly when the three counts are equal and the
    payloads are identical over [dataLength()] bytes; therefore, in a
    table whose registered blocks are live and pairwise different,
    interning a candidate that matches a registered block returns that
    very block with its reference count incremented, discards the
    candidate and leaves the table as it was; and interning keeps the
    table free of matching pairs. *)
Theorem intern_dedup :
  (∀ entry d, well_formed entry → well_formed d →
     (match_ entry d = true ↔
        natoms entry = natoms d ∧ codeLength entry = codeLength d ∧
        numNotes entry = numNotes d ∧ data entry = data d)) ∧
  (∀ rt e c entry cand,
     table_ok rt → e ∈ scriptDataTable rt → heap rt !! e = Some entry →
     heap rt !! c = Some cand → c ∉ scriptDataTable rt →
     match_ entry cand = true →
     ∃ rt', intern rt c = Some (e, rt') ∧
            scriptDataTable rt' = scriptDataTable rt ∧
            heap rt' !! e = Some (with_refCount entry (wrap32 (refCount entry + 1))) ∧
            heap rt' !! c = None) ∧
  table_ok (mkRuntime ∅ []) ∧
  (∀ rt c r rt', table_ok rt → intern rt c = Some (r, rt') → table_ok rt').
Proof.
  split.
  { intros entry d He Hd. rewrite match_true. unfold well_formed in *.
    split.
    - intros (H1 & H2 & H3 & H4). repeat split; try done.
      pose proof (dataLength_counts entry d H1 H2 H3) as Heq.
      unfold data in *.
      apply (ArrayEqual_eq (Z.to_nat (dataLength d))); [lia | lia | exact H4].
    - intros (H1 & H2 & H3 & H4). repeat split; try done.
      unfold data in *. rewrite H4.
      apply (ArrayEqual_eq (Z.to_nat (dataLength d))); [lia | lia | done]. }
  split.
  { intros rt e c entry cand Hok Hin Hl Hc Hnin Hm. eexists. split.
    - by apply (intern_hit rt e c entry cand).
    - cbn [heap scriptDataTable]. split; [done|].
      assert (Hec : e ≠ c) by (intros ->; done).
      split; [|apply lookup_delete_eq].
      rewrite lookup_delete_ne by done. by rewrite lookup_insert_eq. }
  split.
  { split; cbn [heap scriptDataTable].
    - intros e He. by apply elem_of_nil in He.
    - intros e1 e2 b1 b2 He. by apply elem_of_nil in He. }
  intros rt c r rt'. apply intern_table_ok.
Qed.

End InternFacts.

Lemma sample_runtime_ok : @SharedScriptData.table_ok LP64 SharedScriptData.sample_runtime.
Proof.
  split; cbn [SharedScriptData.heap SharedScriptData.scriptDataTable
              SharedScriptData.sample_runtime].
  - intros e ->%list_elem_of_singleton. by eexists.
  - by intros e1 e2 b1 b2 ->%list_elem_of_singleton ->%list_elem_of_singleton.
Qed.

(** Interning a second copy of the registered sample block returns the
    registered block, now with three references. *)
Lemma intern_dedup_witness :
  ∃ rt', @SharedScriptData.intern LP64 SharedScriptData.sample_runtime 8192
           = Some (4096, rt') ∧
         SharedScriptData.scriptDataTable rt' = [4096] ∧
         SharedScriptData.heap rt' !! 4096 = Some (SharedScriptData.sample_block 3) ∧
         SharedScriptData.heap rt' !! 8192 = None.
Proof.
  destruct (@intern_dedup LP64) as (_ & Hhit & _).
  apply (Hhit SharedScriptData.sample_runtime 4096 8192
           (SharedScriptData.sample_block 2) (SharedScriptData.sample_block 1)).
  - exact sample_runtime_ok.
  - by apply list_elem_of_singleton.
  - reflexivity.
  - reflexivity.
  - by intros ?%list_elem_of_singleton.
  - reflexivity.
Defined.

(** ** Pinned source units and deferred compression *)

Section PinFacts.
Import ScriptSource.

Lemma pin_valid_data ss ss' g : data ss' = data ss → pin_valid ss g → pin_valid ss' g.
Proof. unfold pin_valid. by intros ->. Qed.

Lemma pin_Some ss this storage begin len g ss' :
  pin ss this storage begin len = Some (g, ss') →
  data ss' = data ss ∧ pendingCompressed_ ss' = pendingCompressed_ ss ∧
  self g = this ∧ pin_valid ss g ∧
  (pinnedUnitsStack_ ss' = g :: pinnedUnitsStack_ ss ∨
   pinnedUnitsStack_ ss' = pinnedUnitsStack_ ss).
Proof.
  unfold pin, units, pin_valid.
  destruct (data ss) as [u raw rl n|u s n| |s n] eqn:Hd; simpl; try discriminate.
  - destruct (ptr_bool storage); intros [= <- <-]; simpl; rewrite ?Hd; eauto 10.
  - destruct (ptr_bool (s + begin * sizeof_Unit u)); intros [= <- <-]; simpl;
      rewrite ?Hd; eauto 10.
Qed.

Lemma setCompressedSourceFromTask_Some ss raw rawLength ss' :
  setCompressedSourceFromTask ss raw rawLength = Some ss' →
  ∃ u s n, data ss = Uncompressed u s n ∧
    match pinnedUnitsStack_ ss with
    | [] => ss' = with_data ss (Compressed u raw rawLength n)
    | _ :: _ => pendingCompressed_ ss = None ∧
                ss' = with_pending ss (Some (u, raw, rawLength, n))
    end.
Proof.
  unfold setCompressedSourceFromTask, length, hasSourceText, hasUncompressedSource,
    hasCompressedSource, setCompressedSource.
  destruct (data ss) as [u raw' rl n|u s n| |s n] eqn:Hd; simpl; try discriminate.
  intros H. exists u, s, n. split; [done|].
  destruct (pinnedUnitsStack_ ss) as [|g st]; [by injection H as <-|].
  destruct (bool_decide (pendingCompressed_ ss = None)) eqn:Hp; simpl in H; [|discriminate].
  apply bool_decide_eq_true in Hp. by injection H as <-.
Qed.

Lemma unpin_step ss g prev :
  pinnedUnitsStack_ ss = g :: prev → ptr_bool (units_ g) = true →
  source_step ss (Unpin (self g)) =
    Some (match prev with
          | [] => movePendingCompressedSource (with_stack ss [])
          | _ :: _ => with_stack ss prev
          end).
Proof.
  intros Hst Hu. simpl. rewrite Hst. rewrite Z.eqb_refl. simpl.
  unfold unpin. rewrite Hu, Hst, Z.eqb_refl. simpl. by destruct prev.
Qed.

Lemma movePending_stack ss :
  pinnedUnitsStack_ (movePendingCompressedSource ss) = pinnedUnitsStack_ ss.
Proof.
  unfold movePendingCompressedSource.
  by destruct (pendingCompressed_ ss) as [[[[u raw] rl] n]|].
Qed.

(** A step leaves the stack as it is, links one guard on top of it, or
    unlinks its top guard; the guards that stay linked are not altered. *)
Lemma source_step_stack ss op ss' :
  source_step ss op = Some ss' →
  pinnedUnitsStack_ ss' = pinnedUnitsStack_ ss ∨
  (∃ g, pinnedUnitsStack_ ss' = g :: pinnedUnitsStack_ ss ∧ pin_valid ss g) ∨
  (∃ g, pinnedUnitsStack_ ss = g :: pinnedUnitsStack_ ss').
Proof.
  destruct op as [this storage begin len|this|raw rl]; simpl.
  - destruct (pin ss this storage begin len) as [[g ss1]|] eqn:Hp; simpl; [|discriminate].
    intros [= <-]. apply pin_Some in Hp as (Hd & _ & _ & Hv & [Hs|Hs]); eauto 10.
  - destruct (pinnedUnitsStack_ ss) as [|top prev] eqn:Hst; [discriminate|].
    destruct (self top =? this); simpl; [|discriminate].
    unfold unpin. rewrite Hst, Z.eqb_refl. simpl.
    destruct (ptr_bool (units_ top)).
    + destruct prev as [|g' prev]; intros [= <-]; right; right; exists top.
      * by rewrite movePending_stack.
      * done.
    + intros [= <-]. by left.
  - intros (u & s & n & Hd & H)%setCompressedSourceFromTask_Some. left.
    destruct (pinnedUnitsStack_ ss) as [|g st] eqn:Hst.
    + subst ss'. done.
    + destruct H as [_ ->]. done.
Qed.

(** A step changes the representation only if it starts or ends with no
    guard linked. *)
Lemma source_step_data ss op ss' :
  source_step ss op = Some ss' →
  data ss' = data ss ∨ pinnedUnitsStack_ ss = [] ∨ pinnedUnitsStack_ ss' = [].
Proof.
  destruct op as [this storage begin len|this|raw rl]; simpl.
  - destruct (pin ss this storage begin len) as [[g ss1]|] eqn:Hp; simpl; [|discriminate].
    intros [= <-]. apply pin_Some in Hp as (Hd & _). by left.
  - destruct (pinnedUnitsStack_ ss) as [|top prev] eqn:Hst; [discriminate|].
    destruct (self top =? this); simpl; [|discriminate].
    unfold unpin. rewrite Hst, Z.eqb_refl. simpl.
    destruct (ptr_bool (units_ top)).
    + destruct prev as [|g' prev]; intros [= <-].
      * right. right. by rewrite movePending_stack.
      * by left.
    + intros [= <-]. by left.
  - intros (u & s & n & Hd & H)%setCompressedSourceFromTask_Some.
    destruct (pinnedUnitsStack_ ss) as [|g st] eqn:Hst.
    + right. by left.
    + left. destruct H as [_ ->]. done.
Qed.

Lemma source_step_valid ss op ss' :
  pins_valid ss → source_step ss op = Some ss' → pins_valid ss'.
Proof.
  intros Hv Hstep. unfold pins_valid in *. intros g Hg.
  destruct (source_step_data _ _ _ Hstep) as [Hd|[Hs|Hs]].
  - apply (pin_valid_data ss); [done|].
    destruct (source_step_stack _ _ _ Hstep) as [Hs|[(g0 & Hs & Hv0)|(g0 & Hs)]].
    + apply Hv. by rewrite <- Hs.
    + rewrite Hs in Hg. apply elem_of_cons in Hg as [->|Hg]; [done | by apply Hv].
    + apply Hv. rewrite Hs. by right.
  - destruct (source_step_stack _ _ _ Hstep) as [Hs'|[(g0 & Hs' & Hv0)|(g0 & Hs')]].
    + rewrite Hs', Hs in Hg. by apply elem_of_nil in Hg.
    + rewrite Hs', Hs in Hg. apply list_elem_of_singleton in Hg as ->.
      destruct op as [this storage begin len|this|raw rl]; simpl in Hstep.
      * destruct (pin ss this storage begin len) as [[g1 ss1]|] eqn:Hp;
          simpl in Hstep; [|discriminate].
        injection Hstep as <-. apply pin_Some in Hp as (Hd & _).
        by apply (pin_valid_data ss).
      * by rewrite Hs in Hstep.
      * apply setCompressedSourceFromTask_Some in Hstep as (u & s & n & Hd & H).
        rewrite Hs in H. subst ss'. simpl in Hs'. rewrite Hs in Hs'. discriminate.
    + rewrite Hs in Hs'. discriminate.
  - rewrite Hs in Hg. by apply elem_of_nil in Hg.
Qed.

Lemma source_run_valid ops : ∀ ss ss',
  pins_valid ss → source_run ss ops = Some ss' → pins_valid ss'.
Proof.
  induction ops as [|op ops IH]; intros ss ss' Hv; simpl.
  - by intros [= <-].
  - destruct (source_step ss op) as [ss1|] eqn:Hs; simpl; [|discriminate].
    apply IH. by eapply source_step_valid.
Qed.

(** C6. (1) A compression that completes while a guard is outstanding
    leaves the representation and the stack as they are and is stored as
    pending.  (2) No guard is outstanding on a source without guards,
    and every sequence of pins, releases and completions keeps the
    pointer of every outstanding guard valid; a step that starts and
    ends with a guard outstanding does not change the representation.
    (3) Releasing the bottom guard applies the pending compression;
    releasing any other guard changes neither the representation nor
    what is pending.  (4) A guard taken on the compressed representation
    points into units kept by its own holder. *)
Theorem pin_safety :
  (∀ ss raw rawLength ss',
     pinnedUnitsStack_ ss ≠ [] →
     setCompressedSourceFromTask ss raw rawLength = Some ss' →
     data ss' = data ss ∧ pinnedUnitsStack_ ss' = pinnedUnitsStack_ ss ∧
     hasUncompressedSource ss' = true ∧
     ∃ u n, pendingCompressed_ ss' = Some (u, raw, rawLength, n)) ∧
  (∀ ss, pinnedUnitsStack_ ss = [] → pins_valid ss) ∧
  (∀ ss ops ss', pins_valid ss → source_run ss ops = Some ss' → pins_valid ss') ∧
  (∀ ss op ss', source_step ss op = Some ss' →
     (pinnedUnitsStack_ ss ≠ [] → pinnedUnitsStack_ ss' ≠ [] → data ss' = data ss) ∧
     (pinnedUnitsStack_ ss' = pinnedUnitsStack_ ss ∨
      (∃ g, pinnedUnitsStack_ ss' = g :: pinnedUnitsStack_ ss) ∨
      (∃ g, pinnedUnitsStack_ ss = g :: pinnedUnitsStack_ ss'))) ∧
  (∀ ss g u raw rawLength n,
     pinnedUnitsStack_ ss = [g] → ptr_bool (units_ g) = true →
     pendingCompressed_ ss = Some (u, raw, rawLength, n) →
     ∃ ss', source_step ss (Unpin (self g)) = Some ss' ∧
            data ss' = Compressed u raw rawLength n ∧
            pendingCompressed_ ss' = None ∧ pinnedUnitsStack_ ss' = [] ∧
            hasCompressedSource ss' = true) ∧
  (∀ ss g g' rest,
     pinnedUnitsStack_ ss = g :: g' :: rest → ptr_bool (units_ g) = true →
     ∃ ss', source_step ss (Unpin (self g)) = Some ss' ∧
            data ss' = data ss ∧ pendingCompressed_ ss' = pendingCompressed_ ss ∧
            pinnedUnitsStack_ ss' = g' :: rest) ∧
  (∀ ss this storage begin len,
     hasCompressedSource ss = true →
     ∃ g ss', pin ss this storage begin len = Some (g, ss') ∧
              units_ g = storage ∧ target g = InHolder storage ∧
              hasCompressedSource ss' = true).
Proof.
  split.
  { intros ss raw rl ss' Hne (u & s & n & Hd & H)%setCompressedSourceFromTask_Some.
    destruct (pinnedUnitsStack_ ss) as [|g st] eqn:Hst; [done|].
    destruct H as [_ ->]. simpl. rewrite Hst.
    unfold hasUncompressedSource. simpl. rewrite Hd. eauto 10. }
  split.
  { intros ss Hst g Hg. rewrite Hst in Hg. by apply elem_of_nil in Hg. }
  split; [intros ss ops ss'; apply source_run_valid|].
  split.
  { intros ss op ss' Hstep. split.
    - intros Hne Hne'. by destruct (source_step_data _ _ _ Hstep) as [Hd|[Hs|Hs]].
    - destruct (source_step_stack _ _ _ Hstep) as [Hs|[(g & Hs & _)|Hs]]; eauto. }
  split.
  { intros ss g u raw rl n Hst Hu Hp. eexists. split; [by apply unpin_step|].
    unfold movePendingCompressedSource, hasCompressedSource. simpl. rewrite Hp. done. }
  split.
  { intros ss g g' rest Hst Hu. eexists. split; [by apply unpin_step|]. done. }
  intros ss this storage begin len Hc.
  unfold hasCompressedSource in *. unfold pin, units.
  destruct (data ss) as [u raw rl n|u s n| |s n] eqn:Hd; try discriminate. simpl.
  destruct (ptr_bool storage); do 2 eexists; (split; [done|]); simpl;
    rewrite ?Hd; done.
Qed.

Lemma pin_safety_witness :
  source_run sample_source [Pin 1 0 10 20; CompressionDone 8192 40]
    = Some pinned_source_with_pending ∧
  ∃ ss', source_step pinned_source_with_pending (Unpin 1) = Some ss' ∧
         data ss' = Compressed Utf8Unit 8192 40 100 ∧
         pendingCompressed_ ss' = None ∧ pinnedUnitsStack_ ss' = [] ∧
         hasCompressedSource ss' = true.
Proof.
  split; [reflexivity|].
  destruct pin_safety as (_ & _ & _ & _ & Hbottom & _).
  apply (Hbottom pinned_source_with_pending
           {| self := 1; units_ := 4106; target := InSourceBuffer 4096 |}
           Utf8Unit 8192 40 100); reflexivity.
Defined.

(** A pin at offset 10, a completed compression, a nested pin and its
    release, the release of the first pin, and a new pin. *)
Example pin_safety_scenario :
  let ops1 := [Pin 1 0 10 20; CompressionDone 8192 40; Pin 2 0 30 5; Unpin 2] in
  (∃ ss1, source_run sample_source ops1 = Some ss1 ∧
          data ss1 = Uncompressed Utf8Unit 4096 100 ∧
          (units_ <$> pinnedUnitsStack_ ss1) = [4106] ∧
          pendingCompressed_ ss1 = Some (Utf8Unit, 8192, 40, 100)) ∧
  (∃ ss2, source_run sample_source (ops1 ++ [Unpin 1]) = Some ss2 ∧
          data ss2 = Compressed Utf8Unit 8192 40 100 ∧
          pinnedUnitsStack_ ss2 = [] ∧ pendingCompressed_ ss2 = None) ∧
  (∃ ss3, source_run sample_source (ops1 ++ [Unpin 1; Pin 3 12288 10 20]) = Some ss3 ∧
          (target <$> pinnedUnitsStack_ ss3) = [InHolder 12288]).
Proof. repeat split; eexists; (split; [reflexivity|]); repeat split. Qed.

End PinFacts.

(** ** The enclosing link of a lazy script *)

Section LazyFacts.
Import LazyScript.

Lemma setEnclosingLazyScript_Some l p l' :
  setEnclosingLazyScript l p = Some l' ↔
  p ≠ nullptr ∧ enclosingLazyScriptOrScope_ l = NullCell ∧
  l' = {| script_ := script_ l; enclosingLazyScriptOrScope_ := LazyScriptCell p |}.
Proof.
  unfold setEnclosingLazyScript, hasEnclosingLazyScript, hasEnclosingScope.
  rewrite <- ptr_bool_true.
  destruct (ptr_bool p), (enclosingLazyScriptOrScope_ l); simpl; intuition congruence.
Qed.

Lemma setEnclosingScope_Some l p l' :
  setEnclosingScope l p = Some l' ↔
  p ≠ nullptr ∧ hasEnclosingScope l = false ∧
  l' = {| script_ := script_ l; enclosingLazyScriptOrScope_ := ScopeCell p |}.
Proof.
  unfold setEnclosingScope, hasEnclosingScope.
  rewrite <- ptr_bool_true.
  destruct (ptr_bool p), (enclosingLazyScriptOrScope_ l); simpl; intuition congruence.
Qed.

Lemma enclosing_step_forward l op l' :
  enclosing_step l op = Some l' →
  (link_rank (enclosingLazyScriptOrScope_ l) <
   link_rank (enclosingLazyScriptOrScope_ l'))%nat.
Proof.
  destruct op as [p|p]; simpl.
  - intros (_ & Hn & ->)%setEnclosingLazyScript_Some. rewrite Hn. simpl. lia.
  - intros (_ & Hn & ->)%setEnclosingScope_Some. unfold hasEnclosingScope in Hn.
    destruct (enclosingLazyScriptOrScope_ l); simpl; first [lia | discriminate].
Qed.

Lemma enclosing_run_forward ops : ∀ l l',
  enclosing_run l ops = Some l' →
  (link_rank (enclosingLazyScriptOrScope_ l) + List.length ops ≤
   link_rank (enclosingLazyScriptOrScope_ l'))%nat.
Proof.
  induction ops as [|op ops IH]; intros l l'; simpl.
  - intros [= <-]. lia.
  - destruct (enclosing_step l op) as [l1|] eqn:Hs; simpl; [|discriminate].
    intros Hrun. apply IH in Hrun. apply enclosing_step_forward in Hs. lia.
Qed.

Lemma link_rank_max c : (link_rank c ≤ 2)%nat.
Proof. destruct c; simpl; lia. Qed.

Lemma enclosing_run_once ops : ∀ l l',
  enclosing_run l ops = Some l' →
  (count_ops is_SetEnclosingLazyScript ops ≤
     match enclosingLazyScriptOrScope_ l with NullCell => 1 | _ => 0 end)%nat ∧
  (count_ops is_SetEnclosingScope ops ≤
     match enclosingLazyScriptOrScope_ l with ScopeCell _ => 0 | _ => 1 end)%nat.
Proof.
  unfold count_ops.
  induction ops as [|op ops IH]; intros l l'; simpl.
  - intros _. destruct (enclosingLazyScriptOrScope_ l); simpl; lia.
  - destruct (enclosing_step l op) as [l1|] eqn:Hs; simpl; [|discriminate].
    intros Hrun. destruct (IH _ _ Hrun) as [IH1 IH2]. clear IH.
    destruct op as [p|p]; simpl in *.
    + apply setEnclosingLazyScript_Some in Hs as (_ & Hn & ->).
      rewrite Hn. simpl in *. lia.
    + apply setEnclosingScope_Some in Hs as (_ & Hn & ->).
      unfold hasEnclosingScope in Hn. simpl in *.
      destruct (enclosingLazyScriptOrScope_ l); simpl; first [lia | discriminate].
Qed.

(** C7, as the code has it.  The link is null, an enclosing lazy
    script or an enclosing scope; every successful setter moves it
    strictly forward in that order, so a run of successful calls has at
    most two of them, at most one of each setter, and nothing succeeds
    once the link is a scope (it never goes back to a lazy script or to
    null).  [setEnclosingLazyScript] after either setter has succeeded,
    and [setEnclosingScope] after [setEnclosingScope], are assertion
    failures; [setEnclosingScope] after [setEnclosingLazyScript] is the
    step from stub to scope and succeeds. *)
Theorem enclosing_link_monotone :
  (∀ l op l', enclosing_step l op = Some l' →
     (link_rank (enclosingLazyScriptOrScope_ l) <
      link_rank (enclosingLazyScriptOrScope_ l'))%nat) ∧
  (∀ l ops l', enclosing_run l ops = Some l' →
     (List.length ops ≤ 2)%nat ∧
     (count_ops is_SetEnclosingLazyScript ops ≤ 1)%nat ∧
     (count_ops is_SetEnclosingScope ops ≤ 1)%nat) ∧
  (∀ l ops l', hasEnclosingScope l = true → enclosing_run l ops = Some l' →
     ops = [] ∧ l' = l) ∧
  (∀ l p l' q, setEnclosingScope l p = Some l' →
     setEnclosingLazyScript l' q = None ∧ setEnclosingScope l' q = None) ∧
  (∀ l p l' q, setEnclosingLazyScript l p = Some l' →
     setEnclosingLazyScript l' q = None) ∧
  (∀ l p l' q, setEnclosingLazyScript l p = Some l' → q ≠ nullptr →
     ∃ l'', setEnclosingScope l' q = Some l'' ∧
            enclosingLazyScriptOrScope_ l'' = ScopeCell q ∧
            enclosingScriptHasEverBeenCompiled l'' = true).
Proof.
  split; [apply enclosing_step_forward|].
  split.
  { intros l ops l' Hrun. split.
    - pose proof (enclosing_run_forward _ _ _ Hrun).
      pose proof (link_rank_max (enclosingLazyScriptOrScope_ l')). lia.
    - destruct (enclosing_run_once _ _ _ Hrun) as [H1 H2].
      destruct (enclosingLazyScriptOrScope_ l); lia. }
  split.
  { intros l ops l' Hs Hrun. unfold hasEnclosingScope in Hs.
    pose proof (enclosing_run_forward _ _ _ Hrun) as Hf.
    pose proof (link_rank_max (enclosingLazyScriptOrScope_ l')).
    destruct (enclosingLazyScriptOrScope_ l); try discriminate. simpl in Hf.
    destruct ops; [|simpl in Hf; lia]. split; [done|].
    simpl in Hrun. by injection Hrun. }
  split.
  { intros l p l' q (_ & _ & ->)%setEnclosingScope_Some.
    unfold setEnclosingLazyScript, setEnclosingScope. simpl.
    by destruct (ptr_bool q). }
  split.
  { intros l p l' q (_ & _ & ->)%setEnclosingLazyScript_Some.
    unfold setEnclosingLazyScript. simpl. by destruct (ptr_bool q). }
  intros l p l' q (_ & _ & ->)%setEnclosingLazyScript_Some Hq.
  eexists. split.
  - apply setEnclosingScope_Some. split; [done|]. split; [done | reflexivity].
  - done.
Qed.

Lemma enclosing_link_monotone_witness :
  setEnclosingLazyScript new_lazy 4096 = Some (mkLazyScript nullptr (LazyScriptCell 4096)) ∧
  setEnclosingLazyScript (mkLazyScript nullptr (LazyScriptCell 4096)) 12288 = None ∧
  ∃ l'', setEnclosingScope (mkLazyScript nullptr (LazyScriptCell 4096)) 8192 = Some l'' ∧
         enclosingLazyScriptOrScope_ l'' = ScopeCell 8192 ∧
         enclosingScriptHasEverBeenCompiled l'' = true.
Proof.
  destruct enclosing_link_monotone as (_ & _ & _ & _ & Htwice & Hforward).
  split; [reflexivity|]. split.
  - apply (Htwice new_lazy 4096). reflexivity.
  - apply (Hforward new_lazy 4096); [reflexivity | done].
Defined.

(** The two setters called one after the other on a new stub: both
    succeed, the second one after the first has already succeeded. *)
Lemma enclosing_both_setters_succeed :
  ∃ l1 l2,
    setEnclosingLazyScript new_lazy 4096 = Some l1 ∧
    setEnclosingScope l1 8192 = Some l2 ∧
    enclosing_run new_lazy [SetEnclosingLazyScript 4096; SetEnclosingScope 8192]
      = Some l2 ∧
    enclosingLazyScriptOrScope_ l2 = ScopeCell 8192.
Proof. do 2 eexists. repeat split. Qed.

(** ** Delazification *)

(** C8. After a successful delazification the stub has a script, which
    is the one that was returned, and delazifying again returns that same
    script and leaves the stub as it is, whatever the compiler would
    produce; once a collection has cleared the weak reference,
    delazification compiles afresh. *)
Theorem delazify_idempotent (l : LazyScript) (compiled script : Z) (l1 : LazyScript) :
  delazify l compiled = Delazified script l1 →
  hasScript l1 = true ∧ maybeScript l1 = script ∧
  (∀ compiled', delazify l1 compiled' = Delazified script l1) ∧
  (∀ compiled', compiled' ≠ nullptr →
     ∃ l2, delazify (sweep l1) compiled' = Delazified compiled' l2 ∧
           maybeScript l2 = compiled').
Proof.
  unfold delazify. intros H.
  assert (Hs : hasScript l1 = true ∧ maybeScript l1 = script).
  { destruct (hasScript l) eqn:Hl.
    - by injection H as <- <-.
    - destruct (ptr_bool compiled) eqn:Hc; simpl in H; [|discriminate].
      unfold initScript in H. rewrite Hc, Hl in H. simpl in H.
      injection H as <- <-. unfold hasScript, maybeScript. simpl. done. }
  destruct Hs as [Hs1 Hs2]. split; [done|]. split; [done|]. split.
  - intros compiled'. rewrite Hs1. by rewrite Hs2.
  - intros compiled' Hc%ptr_bool_true. eexists.
    unfold sweep, initScript, hasScript. simpl. rewrite Hc. simpl. done.
Qed.

Lemma delazify_idempotent_witness :
  delazify new_lazy 4096 = Delazified 4096 (mkLazyScript 4096 NullCell) ∧
  delazify (mkLazyScript 4096 NullCell) 8192
    = Delazified 4096 (mkLazyScript 4096 NullCell).
Proof.
  split; [reflexivity|].
  apply (delazify_idempotent new_lazy 4096 4096 (mkLazyScript 4096 NullCell)).
  reflexivity.
Defined.

End LazyFacts.

(** * Further properties of the header *)

(** ** Representations of a source and their accessors *)

Section SourceAccessFacts.
Import ScriptSource.

(** X1. A source has exactly one representation: uncompressed and
    compressed text exclude each other and both exclude BinAST and the
    missing state.  Each accessor returns exactly on its own
    representation and crashes on the others: the data pointers on the
    matching alternative, [length()] on everything but a missing source,
    and the character size, the compressed length and the unit test on
    sources with text; the character size is then 1 or 2 and the
    compressed length of uncompressed text is 0. *)
Theorem source_accessors (ss : ScriptSource) :
  xorb (hasUncompressedSource ss) (hasCompressedSource ss) = hasSourceText ss ∧
  hasSourceText ss && hasBinASTSource ss = false ∧
  (hasSourceText ss || hasBinASTSource ss = false ↔ data ss = Missing) ∧
  (is_Some (uncompressedData ss) ↔ hasUncompressedSource ss = true) ∧
  (is_Some (compressedData ss) ↔ hasCompressedSource ss = true) ∧
  (is_Some (binASTData ss) ↔ hasBinASTSource ss = true) ∧
  (is_Some (length ss) ↔ data ss ≠ Missing) ∧
  (is_Some (sourceCharSize ss) ↔ hasSourceText ss = true) ∧
  (is_Some (compressedLengthOrZero ss) ↔ hasSourceText ss = true) ∧
  (∀ u, is_Some (hasSourceType ss u) ↔ hasSourceText ss = true) ∧
  (∀ u, is_Some (uncompressedSourceIs ss u) ↔ hasUncompressedSource ss = true) ∧
  (∀ u, is_Some (compressedSourceIs ss u) ↔ hasCompressedSource ss = true) ∧
  (∀ n, sourceCharSize ss = Some n → n = 1 ∨ n = 2) ∧
  (hasUncompressedSource ss = true → compressedLengthOrZero ss = Some 0) ∧
  (∀ u b, hasSourceType ss u = Some b →
     sourceCharSize ss = Some (sizeof_Unit u) ↔ b = true).
Proof.
  unfold hasSourceText, hasUncompressedSource, hasCompressedSource, hasBinASTSource,
    uncompressedData, compressedData, binASTData, length, sourceCharSize,
    compressedLengthOrZero, hasSourceType, uncompressedSourceIs, compressedSourceIs,
    hasSourceText, hasUncompressedSource, hasCompressedSource, hasBinASTSource.
  destruct (data ss) as [u raw rl n|u s n| |s n]; simpl;
    repeat split; intros; try done; try (by eexists);
    try (by apply is_Some_None in H).
  all: try (injection H as <-; destruct u; by eauto).
  all: try (destruct u; simpl in *; lia).
  all: destruct u, u0; simpl in *; injection H as <-; first [done | lia].
Qed.

(** ** Holders of a source *)

Lemma ss_incref h a src :
  live h !! a = Some src →
  incref h a = Some (mkRcHeap (<[a := with_refs src (wrap32 (refs src + 1))]> (live h))
                              (freed h)).
Proof. intros Hl. unfold incref, rc_incref. by rewrite Hl. Qed.

Lemma ss_decref_keep h a src :
  live h !! a = Some src → 2 ≤ refs src < 2 ^ 32 →
  decref h a = Some (mkRcHeap (<[a := with_refs src (refs src - 1)]> (live h)) (freed h)).
Proof.
  intros Hl Hr. unfold decref. apply rc_decref_Some. exists src.
  split; [done|]. split; [lia|].
  rewrite wrap32_small by lia.
  by destruct (Z.eqb_spec (refs src - 1) 0); [lia|].
Qed.

Lemma ss_decref_last h a src :
  live h !! a = Some src → refs src = 1 →
  decref h a = Some (mkRcHeap (delete a (live h)) (a :: freed h)).
Proof.
  intros Hl Hr. unfold decref. apply rc_decref_Some. exists src.
  split; [done|]. split; [lia|]. by rewrite Hr.
Qed.

(** X2. A holder constructed on a live source adds one reference and
    gives the source back from [get()]; destroying it restores the heap
    exactly when the source had other references, and destroys the
    source, once, when the holder was its only reference.  Resetting an
    empty holder is the constructor, and resetting to null is the
    destructor followed by an empty holder. *)
Theorem holder_lifetime
    (h : RcHeap ScriptSource) (a : Z) (src : ScriptSource) :
  a ≠ nullptr → live h !! a = Some src → 0 ≤ refs src < UINT32_MAX →
  ∃ h1 holder,
    hold h a = Some (h1, holder) ∧ get holder = a ∧
    live h1 !! a = Some (with_refs src (refs src + 1)) ∧
    (1 ≤ refs src → drop h1 holder = Some h) ∧
    (refs src = 0 →
       drop h1 holder = Some (mkRcHeap (delete a (live h)) (a :: freed h))) ∧
    reset h empty_holder a = hold h a ∧
    reset h1 holder nullptr = (λ h2, (h2, empty_holder)) <$> drop h1 holder.
Proof.
  intros Hnn Hl Hr. unfold UINT32_MAX in Hr.
  exists (mkRcHeap (<[a := with_refs src (refs src + 1)]> (live h)) (freed h)),
         (mkHolder a).
  assert (Hhold : hold h a =
            Some (mkRcHeap (<[a := with_refs src (refs src + 1)]> (live h)) (freed h),
                  mkHolder a)).
  { unfold hold. rewrite (ss_incref h a src Hl), wrap32_small by lia. done. }
  split; [done|]. split; [done|]. split; [apply lookup_insert_eq|].
  assert (Hp : ptr_bool a = true) by by apply ptr_bool_true.
  split; [|split; [|split]].
  - intros H1. unfold drop. cbn [ss]. rewrite Hp.
    rewrite (ss_decref_keep _ a (with_refs src (refs src + 1)));
      [| apply lookup_insert_eq | simpl; lia].
    cbn [live freed]. rewrite insert_insert_eq, with_refs_twice.
    cbn [refs with_refs].
    replace (refs src + 1 - 1) with (refs src) by lia.
    rewrite with_refs_id, insert_id by done. by destruct h.
  - intros H0. unfold drop. cbn [ss]. rewrite Hp.
    rewrite (ss_decref_last _ a (with_refs src (refs src + 1)));
      [| apply lookup_insert_eq | simpl; lia].
    cbn [live freed]. by rewrite delete_insert_eq.
  - unfold reset, hold. rewrite Hp. cbn [ss empty_holder].
    destruct (incref h a); done.
  - unfold reset, drop. cbn [ss]. rewrite Hp. done.
Qed.

Lemma holder_lifetime_witness :
  ∃ h1 holder,
    hold one_source_heap 4096 = Some (h1, holder) ∧ get holder = 4096 ∧
    live h1 !! 4096 = Some (with_refs held_source 2) ∧
    drop h1 holder = Some one_source_heap.
Proof.
  destruct (holder_lifetime one_source_heap 4096 held_source)
    as (h1 & holder & H1 & H2 & H3 & H4 & _);
    [done | reflexivity | unfold UINT32_MAX; simpl; lia |].
  exists h1, holder. split; [done|]. split; [done|]. split; [done|].
  apply H4. simpl. lia.
Defined.

(** X3. Resetting a holder from one live source to another moves one
    reference: the new source gains one, the old one loses one and stays
    alive when it had another holder, nothing is freed and no other
    object changes; resetting back restores the heap. *)
Theorem holder_reset_transfers
    (h : RcHeap ScriptSource) (a b : Z) (sa sb : ScriptSource) :
  a ≠ nullptr → b ≠ nullptr → a ≠ b →
  live h !! a = Some sa → live h !! b = Some sb →
  2 ≤ refs sa < 2 ^ 32 → 1 ≤ refs sb < UINT32_MAX →
  ∃ h',
    reset h (mkHolder a) b = Some (h', mkHolder b) ∧
    live h' !! a = Some (with_refs sa (refs sa - 1)) ∧
    live h' !! b = Some (with_refs sb (refs sb + 1)) ∧
    freed h' = freed h ∧
    (∀ c, c ≠ a → c ≠ b → live h' !! c = live h !! c) ∧
    reset h' (mkHolder b) a = Some (h, mkHolder a).
Proof.
  intros Ha Hb Hab Hla Hlb Hra Hrb. unfold UINT32_MAX in Hrb.
  assert (Hpa : ptr_bool a = true) by by apply ptr_bool_true.
  assert (Hpb : ptr_bool b = true) by by apply ptr_bool_true.
  set (m1 := <[b := with_refs sb (refs sb + 1)]> (live h)).
  set (m2 := <[a := with_refs sa (refs sa - 1)]> m1).
  exists (mkRcHeap m2 (freed h)).
  assert (Hfirst : reset h (mkHolder a) b = Some (mkRcHeap m2 (freed h), mkHolder b)).
  { unfold reset. cbn [ss]. rewrite Hpa, Hpb.
    rewrite (ss_incref h b sb Hlb), wrap32_small by lia. cbn [mbind option_bind].
    rewrite (ss_decref_keep _ a sa); [done | | done].
    cbn [live]. by rewrite lookup_insert_ne. }
  split; [done|]. split; [apply lookup_insert_eq|].
  split.
  { unfold m2, m1. cbn [live]. rewrite lookup_insert_ne by done.
    apply lookup_insert_eq. }
  split; [done|]. split.
  { intros c Hca Hcb. unfold m2, m1. cbn [live].
    by rewrite !lookup_insert_ne. }
  unfold reset. cbn [ss]. rewrite Hpa, Hpb.
  rewrite (ss_incref _ a (with_refs sa (refs sa - 1))) by apply lookup_insert_eq.
  cbn [mbind option_bind live freed refs with_refs].
  replace (refs sa - 1 + 1) with (refs sa) by lia.
  rewrite wrap32_small by lia.
  rewrite (ss_decref_keep _ b (with_refs sb (refs sb + 1)));
    [| cbn [live]; unfold m2, m1; rewrite !lookup_insert_ne by done;
       apply lookup_insert_eq
     | simpl; lia].
  cbn [mbind option_bind live freed refs with_refs]. f_equal. f_equal.
  replace (refs sb + 1 - 1) with (refs sb) by lia.
  unfold m2, m1.
  rewrite insert_insert_eq.
  rewrite (insert_insert_ne _ b a) by done.
  rewrite insert_insert_eq.
  rewrite !with_refs_twice, !with_refs_id.
  rewrite (insert_id _ a sa) by (by rewrite lookup_insert_ne).
  rewrite (insert_id _ b sb) by done.
  by destruct h.
Qed.

Lemma holder_reset_transfers_witness :
  ∃ h',
    reset two_source_heap (mkHolder 4096) 8192 = Some (h', mkHolder 8192) ∧
    live h' !! 4096 = Some (with_refs new_source 1) ∧
    live h' !! 8192 = Some (with_refs new_source 2) ∧
    reset h' (mkHolder 8192) 4096 = Some (two_source_heap, mkHolder 4096).
Proof.
  destruct (holder_reset_transfers two_source_heap 4096 8192
              (with_refs new_source 2) held_source)
    as (h' & H1 & H2 & H3 & _ & _ & H6);
    [done | done | done | reflexivity | reflexivity
     | simpl; lia | unfold UINT32_MAX; simpl; lia |].
  exists h'. done.
Defined.

End SourceAccessFacts.

(** ** The introduction offset of a source *)

Section IntroductionFacts.
Import ScriptSource.

(** X4. The introduction offset is set at most once: the setter returns
    exactly when no offset is recorded yet and the offset is at most
    INT32_MAX; the getter crashes until then and afterwards returns the
    offset that was set, and every further call of the setter crashes. *)
Theorem introduction_offset_set_once :
  (∀ i offset,
     is_Some (setIntroductionOffset i offset) ↔
     hasIntroductionOffset i = false ∧ offset ≤ INT32_MAX) ∧
  (∀ i, is_Some (introductionOffset i) ↔ hasIntroductionOffset i = true) ∧
  introductionOffset no_introduction = None ∧
  (∀ i offset i',
     setIntroductionOffset i offset = Some i' →
     hasIntroductionOffset i' = true ∧
     introductionOffset i' = Some offset ∧
     ∀ offset', setIntroductionOffset i' offset' = None).
Proof.
  unfold setIntroductionOffset, introductionOffset, hasIntroductionOffset, MOZ_ASSERT.
  split; [|split; [|split]].
  - intros i offset. destruct (hasIntroductionOffset_ i); simpl.
    { split; [by intros [? ?]|by intros [? _]]. }
    destruct (Z.leb_spec offset INT32_MAX); simpl.
    + split; [done|by eexists].
    + split; [by intros [? ?]|intros [_ ?]; lia].
  - intros i. destruct (hasIntroductionOffset_ i); simpl.
    + split; [done|by eexists].
    + split; [by intros [? ?]|done].
  - done.
  - intros i offset i' H.
    destruct (hasIntroductionOffset_ i); simpl in H; [done|].
    destruct (offset <=? INT32_MAX); simpl in H; [|done].
    by injection H as <-.
Qed.

End IntroductionFacts.

(** ** Holders of an entry of the uncompressed-source cache *)

Section HoldEntryFacts.
Import UncompressedSourceCache.

Ltac hold_crush :=
  repeat match goal with
  | H : Some _ = Some _ |- _ => injection H as <-
  | H : None = Some _ |- _ => discriminate H
  | H : context [MOZ_ASSERT ?b] |- _ =>
      let E := fresh "E" in destruct b eqn:E; simpl in H
  end.

(** X5. A cache-entry holder is used once.  No operation ever leaves it
    with both a cache and data of its own; [deferDelete] returns only on a
    holder whose destructor would have released a cache entry, and leaves
    one whose destructor releases nothing and which owns the data passed
    in; after [holdEntry] the destructor releases the entry when the chunk
    is valid and crashes when a cache was given with an invalid chunk; a
    chunk built by the constructor, which returns exactly on a non-null
    source, is valid, so the destructor does not crash on it.  A
    run of operations from a fresh holder in which every operation hands
    over something non-null is empty, one [holdUnits], one [holdEntry], or
    [holdEntry] followed by [deferDelete]. *)
Theorem hold_entry_protocol :
  (∀ h op h', hold_step h op = Some h' →
     cache_ h' = nullptr ∨ data_ h' = nullptr) ∧
  (∀ h data h', deferDelete h data = Some h' →
     releases_entry h = Some true ∧ releases_entry h' = Some false ∧
     data_ h' = data) ∧
  (∀ h cache c h', holdEntry h cache c = Some h' →
     releases_entry h' =
       if ptr_bool cache then (if valid c then Some true else None) else Some false) ∧
  (∀ source index, is_Some (new_chunk source index) ↔ source ≠ nullptr) ∧
  (∀ h cache source index c h',
     new_chunk source index = Some c → holdEntry h cache c = Some h' →
     releases_entry h' = Some (ptr_bool cache)) ∧
  (∀ ops, forallb takes_ownership ops = true →
     is_Some (hold_run new_holder ops) ↔
     ops = [] ∨ (∃ units, ops = [HoldUnits units]) ∨
     (∃ cache c, ops = [HoldEntry cache c]) ∨
     (∃ cache c data, ops = [HoldEntry cache c; DeferDelete data])).
Proof.
  assert (Hentry : ∀ h cache c h', holdEntry h cache c = Some h' →
     releases_entry h' =
       if ptr_bool cache then (if valid c then Some true else None) else Some false).
  { intros h cache c h' H. unfold holdEntry in H. hold_crush.
    unfold releases_entry. simpl.
    destruct (ptr_bool cache); [|done]. by destruct (valid c). }
  split; [|split; [|split; [|split; [|split]]]].
  - intros h [u|c k|d] h' H; simpl in H;
      unfold holdUnits, holdEntry, deferDelete in H; hold_crush; simpl.
    + left. by apply ptr_bool_false, negb_true_iff.
    + right. by apply ptr_bool_false, negb_true_iff.
    + by left.
  - intros h d h' H. unfold deferDelete in H. hold_crush.
    unfold releases_entry. simpl.
    repeat match goal with E : ?b = true |- context [?b] => rewrite E end.
    done.
  - done.
  - intros source index. unfold new_chunk, valid. simpl.
    destruct (Z.eqb_spec source nullptr); simpl.
    + split; [by intros [? ?] | done].
    + split; [done | by eexists].
  - intros h cache source index c h' Hc H. rewrite (Hentry _ _ _ _ H).
    unfold new_chunk in Hc. simpl in Hc.
    destruct (valid {| ss := source; chunk := index |}) eqn:Hv; simpl in Hc; [|done].
    injection Hc as <-. rewrite Hv. by destruct (ptr_bool cache).
  - intros ops Hall. split.
    + intros [h H].
      destruct ops as [|o1 ops]; [by left|right].
      simpl in Hall. apply andb_true_iff in Hall as [H1 Hall].
      destruct o1 as [u|c k|d]; simpl in H, H1.
      * left. exists u.
        destruct ops as [|o2 ops]; [done|exfalso].
        unfold holdUnits in H. simpl in H.
        destruct o2; simpl in H;
          unfold holdUnits, holdEntry, deferDelete in H; simpl in H;
          rewrite ?H1 in H; done.
      * right. apply andb_true_iff in H1 as [Hc Hk].
        destruct ops as [|o2 ops]; [left; by exists c, k|].
        unfold holdEntry in H. simpl in H.
        simpl in Hall. apply andb_true_iff in Hall as [H2 Hall].
        destruct o2 as [u|c' k'|d]; simpl in H, H2;
          unfold holdUnits, holdEntry, deferDelete in H; simpl in H;
          rewrite ?Hc, ?Hk in H; simpl in H; try done.
        right. exists c, k, d.
        destruct ops as [|o3 ops]; [done|exfalso].
        destruct o3; simpl in H;
          unfold holdUnits, holdEntry, deferDelete in H; simpl in H;
          rewrite ?H2 in H; done.
      * unfold deferDelete in H. done.
    + intros [->|[[u ->]|[(c & k & ->)|(c & k & d & ->)]]]; simpl in *.
      * by eexists.
      * by eexists.
      * by eexists.
      * apply andb_true_iff in Hall as [Hall _].
        apply andb_true_iff in Hall as [Hc Hk].
        unfold deferDelete. simpl. rewrite Hc, Hk. by eexists.
Qed.

End HoldEntryFacts.

(** ** Lazy scripts: the enclosing link and the source extent *)

Section LazyAccessFacts.
Import LazyScript.

(** X6. The enclosing link of a lazy script is read as a scope or as a
    lazy script, never as both: each accessor returns exactly when its
    test holds, and then returns the pointer stored in the link; a
    fresh stub answers neither; [enclosingScriptHasEverBeenCompiled] holds
    exactly when [enclosingScope()] returns. *)
Theorem enclosing_accessors (l : LazyScript) :
  hasEnclosingScope l && hasEnclosingLazyScript l = false ∧
  (∀ p, enclosingScope l = Some p ↔ enclosingLazyScriptOrScope_ l = ScopeCell p) ∧
  (∀ p, enclosingLazyScript l = Some p ↔
        enclosingLazyScriptOrScope_ l = LazyScriptCell p) ∧
  (is_Some (enclosingScope l) ↔ hasEnclosingScope l = true) ∧
  (is_Some (enclosingLazyScript l) ↔ hasEnclosingLazyScript l = true) ∧
  (enclosingScriptHasEverBeenCompiled l = true ↔ is_Some (enclosingScope l)) ∧
  ¬ (is_Some (enclosingScope l) ∧ is_Some (enclosingLazyScript l)) ∧
  enclosingScope new_lazy = None ∧ enclosingLazyScript new_lazy = None.
Proof.
  unfold enclosingScriptHasEverBeenCompiled, enclosingScope, enclosingLazyScript,
    hasEnclosingScope, hasEnclosingLazyScript.
  destruct (enclosingLazyScriptOrScope_ l) as [|p|p]; simpl;
    repeat split; intros; try done; try congruence; try (by eexists);
    try (by apply is_Some_None in H).
  all: intros [H1 H2]; first [by apply is_Some_None in H1
                             | by apply is_Some_None in H2].
Qed.

(** X7. [setToStringEnd] returns exactly when the new end is not before
    [toStringStart_] and the end recorded before the call is not before
    [sourceEnd_]; it changes [toStringEnd_] only.  The new end is not
    compared with [sourceEnd_], so a call can leave the end before
    [sourceEnd_], and then every later call crashes. *)
Theorem setToStringEnd_checks_old_end :
  (∀ e n, is_Some (setToStringEnd e n) ↔
          toStringStart e ≤ n ∧ sourceEnd e ≤ toStringEnd e) ∧
  (∀ e n e', setToStringEnd e n = Some e' →
     toStringEnd e' = n ∧ sourceStart e' = sourceStart e ∧
     sourceEnd e' = sourceEnd e ∧ toStringStart e' = toStringStart e) ∧
  (∀ e n e', setToStringEnd e n = Some e' →
     ∀ m, is_Some (setToStringEnd e' m) ↔ toStringStart e ≤ m ∧ sourceEnd e ≤ n) ∧
  (∀ e n e', setToStringEnd e n = Some e' → n < sourceEnd e →
     ∀ m, setToStringEnd e' m = None).
Proof.
  assert (Hspec : ∀ e n, is_Some (setToStringEnd e n) ↔
                         toStringStart e ≤ n ∧ sourceEnd e ≤ toStringEnd e).
  { intros e n. unfold setToStringEnd, MOZ_ASSERT, toStringStart, sourceEnd, toStringEnd.
    destruct (Z.leb_spec (toStringStart_ e) n); simpl.
    - destruct (Z.geb_spec (toStringEnd_ e) (sourceEnd_ e)); simpl.
      + split; [lia|by eexists].
      + split; [by intros [? ?]|lia].
    - split; [by intros [? ?]|lia]. }
  assert (Hres : ∀ e n e', setToStringEnd e n = Some e' →
     toStringEnd e' = n ∧ sourceStart e' = sourceStart e ∧
     sourceEnd e' = sourceEnd e ∧ toStringStart e' = toStringStart e).
  { intros e n e' H. unfold setToStringEnd, MOZ_ASSERT in H.
    destruct (toStringStart_ e <=? n); simpl in H; [|done].
    destruct (toStringEnd_ e >=? sourceEnd_ e); simpl in H; [|done].
    by injection H as <-. }
  split; [done|]. split; [done|]. split.
  - intros e n e' H m. destruct (Hres _ _ _ H) as (H1 & _ & H3 & H4).
    by rewrite Hspec, H1, H3, H4.
  - intros e n e' H Hlt m. destruct (Hres _ _ _ H) as (H1 & _ & H3 & H4).
    apply eq_None_not_Some. rewrite Hspec, H1, H3. lia.
Qed.

(** X8. [sourceLength] is the difference of two unsigned 32-bit offsets:
    it is [sourceEnd - sourceStart] when the start is not after the end
    and wraps to [2^32 + sourceEnd - sourceStart] otherwise; in both cases
    the start plus the length is the end again, modulo 2^32. *)
Theorem sourceLength_wraps (e : Extent) :
  extent_in_range e →
  0 ≤ sourceLength e < 2 ^ 32 ∧
  (sourceStart e ≤ sourceEnd e → sourceLength e = sourceEnd e - sourceStart e) ∧
  (sourceEnd e < sourceStart e →
     sourceLength e = 2 ^ 32 + sourceEnd e - sourceStart e) ∧
  wrap32 (sourceStart e + sourceLength e) = sourceEnd e.
Proof.
  intros (Hs & He & _). unfold sourceLength, sourceStart, sourceEnd, wrap32.
  split; [apply Z.mod_pos_bound; lia|]. split; [|split].
  - intros Hle. apply Z.mod_small. lia.
  - intros Hlt.
    replace (sourceEnd_ e - sourceStart_ e)
      with (2 ^ 32 + sourceEnd_ e - sourceStart_ e + (-1) * 2 ^ 32) by lia.
    rewrite Z.mod_add by lia. apply Z.mod_small. lia.
  - rewrite Zplus_mod_idemp_r.
    replace (sourceStart_ e + (sourceEnd_ e - sourceStart_ e)) with (sourceEnd_ e) by lia.
    apply Z.mod_small. lia.
Qed.

Lemma sourceLength_wraps_witness :
  sourceLength (mkExtent 10 4 10 20) = 2 ^ 32 + 4 - 10 ∧
  wrap32 (10 + sourceLength (mkExtent 10 4 10 20)) = 4.
Proof.
  destruct (sourceLength_wraps (mkExtent 10 4 10 20)) as (_ & _ & H3 & H4).
  { unfold extent_in_range. simpl. lia. }
  split; [apply H3; simpl; lia | exact H4].
Defined.

End LazyAccessFacts.

(** ** Presence bits and offsets of the trailing arrays *)

Lemma mask_testbit v n :
  0 ≤ n → negb (Z.land v (Z.shiftl 1 n) =? 0) = Z.testbit v n.
Proof.
  intros Hn. rewrite Z.shiftl_1_l.
  destruct (Z.testbit v n) eqn:E.
  - apply negb_true_iff, Z.eqb_neq. intros H0.
    assert (Hb : Z.testbit (Z.land v (2 ^ n)) n = true).
    { by rewrite Z.land_spec, E, Z.pow2_bits_true. }
    rewrite H0, Z.bits_0 in Hb. done.
  - apply negb_false_iff, Z.eqb_eq, Z.bits_inj'. intros m Hm.
    rewrite Z.land_spec, Z.bits_0, Z.pow2_bits_eqb by done.
    destruct (Z.eqb_spec n m) as [->|]; [by rewrite E|apply andb_false_r].
Qed.

Lemma ArrayKind_value_range k : 0 ≤ ArrayKind_value k < ARRAY_KIND_BITS.
Proof. unfold ARRAY_KIND_BITS. destruct k; simpl; lia. Qed.

Lemma ArrayKind_value_inj k k' : ArrayKind_value k = ArrayKind_value k' → k = k'.
Proof. by destruct k, k'. Qed.

Lemma hasArray_testbit s k :
  hasArray s k = Z.testbit (hasArrayBits_ (bitFields_ s)) (ArrayKind_value k).
Proof. unfold hasArray. apply mask_testbit, ArrayKind_value_range. Qed.

Lemma setHasArray_bits s k :
  hasArrayBits_ (bitFields_ (setHasArray s k)) =
  Z.lor (hasArrayBits_ (bitFields_ s)) (Z.shiftl 1 (ArrayKind_value k))
    mod 2 ^ ARRAY_KIND_BITS.
Proof. done. Qed.

Lemma hasArray_setHasArray s k k' :
  hasArray (setHasArray s k) k' =
  (ArrayKind_value k =? ArrayKind_value k') || hasArray s k'.
Proof.
  rewrite !hasArray_testbit, setHasArray_bits.
  pose proof (ArrayKind_value_range k). pose proof (ArrayKind_value_range k').
  rewrite Z.mod_pow2_bits_low by lia.
  rewrite Z.lor_spec, Z.shiftl_1_l, Z.pow2_bits_eqb by lia.
  apply orb_comm.
Qed.

(** X9. [setHasArray] sets the presence bit of its kind and of no other:
    afterwards [hasArray] holds for that kind and answers as before for
    every other kind, whatever the bits were; the stored bits fit the
    four-bit field; setting a bit twice is setting it once, and bits can
    be set in either order.  [cloneHasArray] makes [hasArray] answer as it
    does on the script the bits were taken from. *)
Theorem setHasArray_sets_one_bit :
  (∀ s k, hasArray (setHasArray s k) k = true) ∧
  (∀ s k k', k ≠ k' → hasArray (setHasArray s k) k' = hasArray s k') ∧
  (∀ s k, 0 ≤ hasArrayBits_ (bitFields_ (setHasArray s k)) < 2 ^ ARRAY_KIND_BITS) ∧
  (∀ s k, setHasArray (setHasArray s k) k = setHasArray s k) ∧
  (∀ s k k', setHasArray (setHasArray s k) k' = setHasArray (setHasArray s k') k) ∧
  (∀ s script k, hasArray (cloneHasArray s script) k = hasArray script k).
Proof.
  assert (Hbits : ∀ v a b,
    Z.lor (Z.lor v a mod 2 ^ ARRAY_KIND_BITS) b mod 2 ^ ARRAY_KIND_BITS =
    Z.lor (Z.lor v a) b mod 2 ^ ARRAY_KIND_BITS).
  { intros v a b. unfold ARRAY_KIND_BITS. apply Z.bits_inj'. intros m Hm.
    destruct (Z.ltb_spec m 4).
    - rewrite !Z.mod_pow2_bits_low, !Z.lor_spec by lia.
      rewrite Z.mod_pow2_bits_low by lia. by rewrite Z.lor_spec.
    - rewrite !Z.mod_pow2_bits_high by lia. done. }
  split; [|split; [|split; [|split; [|split]]]].
  - intros s k. by rewrite hasArray_setHasArray, Z.eqb_refl.
  - intros s k k' Hne. rewrite hasArray_setHasArray.
    destruct (Z.eqb_spec (ArrayKind_value k) (ArrayKind_value k')) as [E|]; [|done].
    by apply ArrayKind_value_inj in E.
  - intros s k. rewrite setHasArray_bits. apply Z.mod_pos_bound.
    unfold ARRAY_KIND_BITS. lia.
  - intros s k. unfold setHasArray at 1 3. rewrite setHasArray_bits. simpl.
    unfold with_bitFields, with_hasArrayBits. simpl. do 2 f_equal.
    rewrite Hbits. f_equal. by rewrite <- Z.lor_assoc, Z.lor_diag.
  - intros s k k'. unfold setHasArray at 1 3. rewrite !setHasArray_bits. simpl.
    unfold with_bitFields, with_hasArrayBits. simpl. do 2 f_equal.
    rewrite !Hbits. f_equal.
    rewrite <- !Z.lor_assoc. f_equal. apply Z.lor_comm.
  - intros s script k. by rewrite !hasArray_testbit.
Qed.

Section OffsetSumFacts.
Context `{abi : ABI}.

Lemma OFF_small prev present size :
  0 ≤ prev → 0 ≤ size → prev + size < 2 ^ size_t_bits →
  OFF prev present size = prev + (if present then size else 0).
Proof.
  intros Hp Hs Hlt. unfold OFF, wrap_size. apply Z.mod_small.
  destruct present; lia.
Qed.

Lemma offsets_closed_form (s : JSScript) :
  abi_ok →
  sizeof_ScopeArray + sizeof_ConstArray + sizeof_ObjectArray +
    sizeof_TryNoteArray + sizeof_ScopeNoteArray < 2 ^ size_t_bits →
  constsOffset s = sizeof_ScopeArray ∧
  objectsOffset s =
    sizeof_ScopeArray + (if hasConsts s then sizeof_ConstArray else 0) ∧
  trynotesOffset s =
    sizeof_ScopeArray + (if hasConsts s then sizeof_ConstArray else 0) +
    (if hasObjects s then sizeof_ObjectArray else 0) ∧
  scopeNotesOffset s =
    sizeof_ScopeArray + (if hasConsts s then sizeof_ConstArray else 0) +
    (if hasObjects s then sizeof_ObjectArray else 0) +
    (if hasTrynotes s then sizeof_TryNoteArray else 0) ∧
  yieldAndAwaitOffsetsOffset s =
    sizeof_ScopeArray + (if hasConsts s then sizeof_ConstArray else 0) +
    (if hasObjects s then sizeof_ObjectArray else 0) +
    (if hasTrynotes s then sizeof_TryNoteArray else 0) +
    (if hasScopeNotes s then sizeof_ScopeNoteArray else 0).
Proof.
  intros (Hb & _ & Hs & Hc & Ho & Ht & Hn) Hsum.
  unfold sizeof_ok in *.
  assert (H1 : constsOffset s = sizeof_ScopeArray).
  { unfold constsOffset, scopesOffset, wrap_size. apply Z.mod_small. lia. }
  assert (H2 : objectsOffset s =
    sizeof_ScopeArray + (if hasConsts s then sizeof_ConstArray else 0)).
  { unfold objectsOffset. rewrite H1. apply OFF_small; lia. }
  assert (H3 : trynotesOffset s =
    sizeof_ScopeArray + (if hasConsts s then sizeof_ConstArray else 0) +
    (if hasObjects s then sizeof_ObjectArray else 0)).
  { unfold trynotesOffset. rewrite H2.
    apply OFF_small; destruct (hasConsts s); lia. }
  assert (H4 : scopeNotesOffset s =
    sizeof_ScopeArray + (if hasConsts s then sizeof_ConstArray else 0) +
    (if hasObjects s then sizeof_ObjectArray else 0) +
    (if hasTrynotes s then sizeof_TryNoteArray else 0)).
  { unfold scopeNotesOffset. rewrite H3.
    apply OFF_small; destruct (hasConsts s), (hasObjects s); lia. }
  split; [done|]. split; [done|]. split; [done|]. split; [done|].
  unfold yieldAndAwaitOffsetsOffset. rewrite H4.
  apply OFF_small; destruct (hasConsts s), (hasObjects s), (hasTrynotes s); lia.
Qed.

(** X10. When the five array headers together fit in [size_t], no offset
    wraps: each offset is the sum of [sizeof(ScopeArray)] and the header
    sizes of the arrays present before it, the offsets are in
    non-decreasing order and bounded by the sum of all five headers, and
    setting the presence bit of an absent array moves the offset of the
    yield-and-await offsets by exactly that array's header size. *)
Theorem trailing_array_offsets_sum (s : JSScript) :
  abi_ok →
  sizeof_ScopeArray + sizeof_ConstArray + sizeof_ObjectArray +
    sizeof_TryNoteArray + sizeof_ScopeNoteArray < 2 ^ size_t_bits →
  constsOffset s = sizeof_ScopeArray ∧
  objectsOffset s =
    sizeof_ScopeArray + (if hasConsts s then sizeof_ConstArray else 0) ∧
  trynotesOffset s =
    sizeof_ScopeArray + (if hasConsts s then sizeof_ConstArray else 0) +
    (if hasObjects s then sizeof_ObjectArray else 0) ∧
  scopeNotesOffset s =
    sizeof_ScopeArray + (if hasConsts s then sizeof_ConstArray else 0) +
    (if hasObjects s then sizeof_ObjectArray else 0) +
    (if hasTrynotes s then sizeof_TryNoteArray else 0) ∧
  yieldAndAwaitOffsetsOffset s =
    sizeof_ScopeArray + (if hasConsts s then sizeof_ConstArray else 0) +
    (if hasObjects s then sizeof_ObjectArray else 0) +
    (if hasTrynotes s then sizeof_TryNoteArray else 0) +
    (if hasScopeNotes s then sizeof_ScopeNoteArray else 0) ∧
  scopesOffset s ≤ constsOffset s ∧ constsOffset s ≤ objectsOffset s ∧
  objectsOffset s ≤ trynotesOffset s ∧ trynotesOffset s ≤ scopeNotesOffset s ∧
  scopeNotesOffset s ≤ yieldAndAwaitOffsetsOffset s ∧
  yieldAndAwaitOffsetsOffset s ≤
    sizeof_ScopeArray + sizeof_ConstArray + sizeof_ObjectArray +
    sizeof_TryNoteArray + sizeof_ScopeNoteArray ∧
  (∀ k, hasArray s k = false →
     yieldAndAwaitOffsetsOffset (setHasArray s k) =
     yieldAndAwaitOffsetsOffset s +
     match k with
     | CONSTS => sizeof_ConstArray
     | OBJECTS => sizeof_ObjectArray
     | TRYNOTES => sizeof_TryNoteArray
     | SCOPENOTES => sizeof_ScopeNoteArray
     end).
Proof.
  intros Habi Hsum.
  destruct (offsets_closed_form s Habi Hsum) as (H1 & H2 & H3 & H4 & H5).
  do 5 (split; [done|]).
  pose proof Habi as (Hb & _ & Hs & Hc & Ho & Ht & Hn). unfold sizeof_ok in *.
  rewrite H1, H2, H3, H4, H5. unfold scopesOffset.
  do 6 (split;
    [destruct (hasConsts s), (hasObjects s), (hasTrynotes s), (hasScopeNotes s); lia|]).
  intros k Hk.
  destruct (offsets_closed_form (setHasArray s k)) as (_ & _ & _ & _ & ->);
    [done | done |].
  unfold hasConsts, hasObjects, hasTrynotes, hasScopeNotes.
  rewrite !hasArray_setHasArray.
  destruct k; simpl; rewrite Hk; simpl;
    destruct (hasArray s CONSTS), (hasArray s OBJECTS), (hasArray s TRYNOTES),
      (hasArray s SCOPENOTES); try discriminate Hk; lia.
Qed.

(** X11. The raw accessor of a trailing array returns exactly when the
    array is present (the scopes always are).  When the five headers fit
    in [size_t], the headers of the arrays that are present lie one after
    another from [data] on, in the order scopes, consts, objects, try
    notes, scope notes, yield-and-await offsets, without overlap: each
    header that is present starts at or after the end of every earlier
    one, and the consts header starts exactly where the scopes header
    ends. *)
Theorem trailing_headers_disjoint (s : JSScript) (data : Z) :
  abi_ok →
  sizeof_ScopeArray + sizeof_ConstArray + sizeof_ObjectArray +
    sizeof_TryNoteArray + sizeof_ScopeNoteArray < 2 ^ size_t_bits →
  scopesRaw s data = data ∧
  (is_Some (constsRaw s data) ↔ hasConsts s = true) ∧
  (is_Some (objectsRaw s data) ↔ hasObjects s = true) ∧
  (is_Some (trynotesRaw s data) ↔ hasTrynotes s = true) ∧
  (is_Some (scopeNotesRaw s data) ↔ hasScopeNotes s = true) ∧
  (is_Some (yieldAndAwaitOffsetsRaw s data) ↔ isGenerator s || isAsync s = true) ∧
  (∀ c, constsRaw s data = Some c → c = scopesRaw s data + sizeof_ScopeArray) ∧
  (∀ o, objectsRaw s data = Some o →
     scopesRaw s data + sizeof_ScopeArray ≤ o ∧
     (∀ c, constsRaw s data = Some c → c + sizeof_ConstArray = o)) ∧
  (∀ t, trynotesRaw s data = Some t →
     scopesRaw s data + sizeof_ScopeArray ≤ t ∧
     (∀ c, constsRaw s data = Some c → c + sizeof_ConstArray ≤ t) ∧
     (∀ o, objectsRaw s data = Some o → o + sizeof_ObjectArray = t)) ∧
  (∀ n, scopeNotesRaw s data = Some n →
     scopesRaw s data + sizeof_ScopeArray ≤ n ∧
     (∀ c, constsRaw s data = Some c → c + sizeof_ConstArray ≤ n) ∧
     (∀ o, objectsRaw s data = Some o → o + sizeof_ObjectArray ≤ n) ∧
     (∀ t, trynotesRaw s data = Some t → t + sizeof_TryNoteArray = n)) ∧
  (∀ y, yieldAndAwaitOffsetsRaw s data = Some y →
     scopesRaw s data + sizeof_ScopeArray ≤ y ∧
     (∀ c, constsRaw s data = Some c → c + sizeof_ConstArray ≤ y) ∧
     (∀ o, objectsRaw s data = Some o → o + sizeof_ObjectArray ≤ y) ∧
     (∀ t, trynotesRaw s data = Some t → t + sizeof_TryNoteArray ≤ y) ∧
     (∀ n, scopeNotesRaw s data = Some n → n + sizeof_ScopeNoteArray = y)).
Proof.
  intros Habi Hsum.
  destruct (offsets_closed_form s Habi Hsum) as (H1 & H2 & H3 & H4 & H5).
  destruct Habi as (Hb & _ & Hs & Hc & Ho & Ht & Hn). unfold sizeof_ok in *.
  unfold scopesRaw, constsRaw, objectsRaw, trynotesRaw, scopeNotesRaw,
    yieldAndAwaitOffsetsRaw, hasYieldAndAwaitOffsets, scopesOffset.
  rewrite H1, H2, H3, H4, H5.
  destruct (hasConsts s), (hasObjects s), (hasTrynotes s), (hasScopeNotes s),
    (isGenerator s || isAsync s); simpl;
    repeat match goal with
    | |- _ ∧ _ => split
    | |- _ ↔ _ => split
    | |- ∀ _, _ => intro
    | H : None = Some _ |- _ => discriminate H
    | H : Some _ = Some _ |- _ => injection H as <-
    | H : is_Some None |- _ => by apply is_Some_None in H
    | H : false = true |- _ => discriminate H
    | |- is_Some (Some _) => by eexists
    | |- true = true => reflexivity
    | |- _ = _ => lia
    | |- _ ≤ _ => lia
    end.
Qed.

End OffsetSumFacts.

Lemma trailing_headers_disjoint_witness :
  ∃ c t,
    @constsRaw LP64 script_with_consts_and_trynotes 4096 = Some c ∧
    @trynotesRaw LP64 script_with_consts_and_trynotes 4096 = Some t ∧
    c = 4096 + 16 ∧ c + 16 ≤ t.
Proof.
  destruct (@trailing_headers_disjoint LP64 script_with_consts_and_trynotes 4096)
    as (_ & H2 & _ & H4 & _ & _ & H7 & _ & H9 & _);
    [apply LP64_ok | simpl; lia |].
  destruct H2 as [_ H2]. destruct (H2 eq_refl) as [c Hc].
  destruct H4 as [_ H4]. destruct (H4 eq_refl) as [t Ht].
  exists c, t. split; [exact Hc|]. split; [exact Ht|].
  split; [exact (H7 c Hc)|].
  destruct (H9 t Ht) as (_ & Hct & _). exact (Hct c Hc).
Defined.

Lemma trailing_array_offsets_sum_witness :
  @yieldAndAwaitOffsetsOffset LP64 script_with_consts_and_trynotes = 48 ∧
  @yieldAndAwaitOffsetsOffset LP64
     (setHasArray script_with_consts_and_trynotes OBJECTS) = 64.
Proof.
  destruct (@trailing_array_offsets_sum LP64 script_with_consts_and_trynotes)
    as (_ & _ & _ & _ & H5 & _ & _ & _ & _ & _ & _ & H12);
    [apply LP64_ok | simpl; lia |].
  split; [exact H5 | exact (H12 OBJECTS eq_refl)].
Defined.

(** ** Accessors of the attached code *)

(** X12. What the slot accessors give.  [hasIonScript] answers false
    exactly on the null slot and the three sentinels, and crashes exactly
    when the slot holds code while the baseline slot is null; when it
    answers true the script can be Ion-compiled, is not being compiled off
    thread and has a non-null baseline slot.  [ionScript()] and
    [baselineScript()] return exactly when the matching test answers true,
    and then return the slot, which is neither null nor a sentinel.  A
    disabled or compiling slot never counts as code. *)
Theorem code_slot_accessors (s : JSScript) :
  (hasIonScript s = Some false ↔
     ion s = nullptr ∨ ion s = ION_DISABLED_SCRIPT ∨
     ion s = ION_COMPILING_SCRIPT ∨ ion s = ION_PENDING_SCRIPT) ∧
  (hasIonScript s = None ↔
     ion s ≠ nullptr ∧ ion s ≠ ION_DISABLED_SCRIPT ∧
     ion s ≠ ION_COMPILING_SCRIPT ∧ ion s ≠ ION_PENDING_SCRIPT ∧
     baseline s = nullptr) ∧
  (hasIonScript s = Some true →
     canIonCompile s = true ∧ isIonCompilingOffThread s = false ∧
     baseline s ≠ nullptr) ∧
  (canIonCompile s = false → hasIonScript s = Some false) ∧
  (isIonCompilingOffThread s = true → hasIonScript s = Some false) ∧
  (canBaselineCompile s = false → hasBaselineScript s ≠ Some true) ∧
  (∀ p, ionScript s = Some p ↔ hasIonScript s = Some true ∧ p = ion s) ∧
  (∀ p, ionScript s = Some p →
     p ≠ nullptr ∧ p ≠ ION_DISABLED_SCRIPT ∧ p ≠ ION_COMPILING_SCRIPT ∧
     p ≠ ION_PENDING_SCRIPT) ∧
  (∀ p, baselineScript s = Some p ↔ hasBaselineScript s = Some true ∧ p = baseline s) ∧
  (∀ p, baselineScript s = Some p → p ≠ nullptr ∧ p ≠ BASELINE_DISABLED_SCRIPT).
Proof.
  assert (Hion : ∀ p, ionScript s = Some p ↔ hasIonScript s = Some true ∧ p = ion s).
  { intros p. unfold ionScript.
    destruct (hasIonScript s) as [[|]|]; simpl; intuition congruence. }
  assert (Hbase : ∀ p, baselineScript s = Some p ↔
                       hasBaselineScript s = Some true ∧ p = baseline s).
  { intros p. unfold baselineScript.
    destruct (hasBaselineScript s) as [[|]|]; simpl; intuition congruence. }
  split; [apply hasIonScript_false|].
  split. { split; [intros H | intros (?&?&?&?&?)]; tier_cases s; repeat split; lia. }
  split.
  { intros H. unfold canIonCompile, isIonCompilingOffThread. tier_cases s. }
  split. { unfold canIonCompile. intros H. tier_cases s. }
  split. { unfold isIonCompilingOffThread. intros H. tier_cases s. }
  split. { unfold canBaselineCompile. intros H. tier_cases s. }
  split; [done|]. split.
  { intros p [H ->]%Hion. apply hasIonScript_true in H. tauto. }
  split; [done|].
  intros p [H ->]%Hbase. by apply hasBaselineScript_true in H.
Qed.

(** ** Relazification and the flags that veto it *)

Lemma setDoNotRelazify_twice s b b' :
  setDoNotRelazify (setDoNotRelazify s b) b' = setDoNotRelazify s b'.
Proof. done. Qed.

Lemma setDoNotRelazify_id s : setDoNotRelazify s (doNotRelazify_ (bitFields_ s)) = s.
Proof. destruct s as [? ? ? ? []]. done. Qed.

(** X13. [isRelazifiable] evaluates its tests in order and stops at the
    first that fails: a script that is neither self-hosted nor lazily
    compiled, or has inner functions, type information, or is a
    generator, async or a default class constructor, is answered false
    without the code slots being read, so without their assertions.  The
    call crashes exactly when those tests pass and [hasBaselineScript]
    crashes; in particular it returns whenever both slot tests return,
    and after [setHasInnerFunctions(true)] it answers false whatever the
    slots hold.
    After [setDoNotRelazify(true)] the answer is false whenever the call
    returns, and a later [setDoNotRelazify] with the old value of the flag
    restores the script, hence the answer. *)
Theorem relazifiable_short_circuit (s : JSScript) :
  ((selfHosted s || ptr_bool (lazyScript s)) && negb (hasInnerFunctions s) &&
     negb (ptr_bool (types_ s)) && negb (isGenerator s) && negb (isAsync s) &&
     negb (isDefaultClassConstructor s) = false →
   isRelazifiable s = Some false) ∧
  (isRelazifiable s = None ↔
     (selfHosted s || ptr_bool (lazyScript s)) && negb (hasInnerFunctions s) &&
       negb (ptr_bool (types_ s)) && negb (isGenerator s) && negb (isAsync s) &&
       negb (isDefaultClassConstructor s) = true ∧
     hasBaselineScript s = None) ∧
  (is_Some (hasIonScript s) → is_Some (hasBaselineScript s) →
   is_Some (isRelazifiable s)) ∧
  isRelazifiable (setHasInnerFunctions s true) = Some false ∧
  isRelazifiable (setDoNotRelazify s true) = (λ _, false) <$> isRelazifiable s ∧
  (∀ b, setDoNotRelazify (setDoNotRelazify s b) (doNotRelazify_ (bitFields_ s)) = s) ∧
  (∀ b, isRelazifiable
          (setDoNotRelazify (setDoNotRelazify s b) (doNotRelazify_ (bitFields_ s))) =
        isRelazifiable s).
Proof.
  assert (Hslots : hasBaselineScript s = Some false → hasAnyIonScript s = Some false).
  { intros [_ Hi]%hasBaselineScript_false. apply hasIonScript_false. tauto. }
  assert (Hback : ∀ b,
    setDoNotRelazify (setDoNotRelazify s b) (doNotRelazify_ (bitFields_ s)) = s).
  { intros b. by rewrite setDoNotRelazify_twice, setDoNotRelazify_id. }
  split; [|split; [|split; [|split; [|split; [|split]]]]].
  - unfold isRelazifiable, hasInnerFunctions.
    destruct (selfHosted s || ptr_bool (lazyScript s)),
      (hasInnerFunctions_ (bitFields_ s)), (ptr_bool (types_ s)), (isGenerator s),
      (isAsync s), (isDefaultClassConstructor s); simpl; done.
  - unfold isRelazifiable, hasInnerFunctions.
    destruct (selfHosted s || ptr_bool (lazyScript s)),
      (hasInnerFunctions_ (bitFields_ s)), (ptr_bool (types_ s)), (isGenerator s),
      (isAsync s), (isDefaultClassConstructor s); simpl;
      try (split; [done | by intros [? _]]).
    destruct (hasBaselineScript s) as [[|]|] eqn:Hb; simpl.
    + split; [done | by intros [_ ?]].
    + rewrite Hslots by done. simpl. split; [done | by intros [_ ?]].
    + done.
  - intros [i Hi] [b Hb]. unfold isRelazifiable.
    destruct (selfHosted s || ptr_bool (lazyScript s)),
      (hasInnerFunctions_ (bitFields_ s)), (ptr_bool (types_ s)), (isGenerator s),
      (isAsync s), (isDefaultClassConstructor s); simpl; try (by eexists).
    unfold hasAnyIonScript. rewrite Hb, Hi. destruct b, i; simpl; by eexists.
  - unfold isRelazifiable, setHasInnerFunctions, selfHosted. simpl.
    by destruct (selfHosted_ (bitFields_ s) || ptr_bool (lazyScript s)).
  - unfold isRelazifiable, setDoNotRelazify, selfHosted, isGenerator, isAsync,
      isDefaultClassConstructor, hasAnyIonScript, hasIonScript, hasBaselineScript.
    simpl.
    destruct (selfHosted_ (bitFields_ s) || ptr_bool (lazyScript s)),
      (hasInnerFunctions_ (bitFields_ s)), (ptr_bool (types_ s)),
      (isGenerator_ (bitFields_ s)), (isAsync_ (bitFields_ s)),
      (isDefaultClassConstructor_ (bitFields_ s)); simpl; try done.
    fold (hasBaselineScript s). fold (hasIonScript s).
    destruct (hasBaselineScript s) as [[|]|] eqn:Hb; simpl; try done.
    change (hasIonScript s) with (hasAnyIonScript s).
    rewrite Hslots by done. simpl. by destruct (doNotRelazify_ (bitFields_ s)).
  - done.
  - intros b. by rewrite Hback.
Qed.

(** ** Generator and async kind *)

Lemma setGeneratorKind_Some s k s' :
  setGeneratorKind s k = Some s' ↔
  isGenerator s = false ∧
  s' = with_bitFields s (with_isGenerator (bitFields_ s) (is_Generator k)).
Proof.
  unfold setGeneratorKind. destruct (isGenerator s); simpl; intuition congruence.
Qed.

(** X14. The generator kind is set during initialisation only:
    [setGeneratorKind] returns exactly on a script that is not a
    generator, afterwards [generatorKind()] is the kind passed in, and the
    async kind and the presence bits are untouched.  So in any sequence of
    calls that returns, every call but the last passed [NotGenerator], and
    once [Generator] has been set every further call crashes.
    [setAsyncKind] has no such check and can be called again. *)
Theorem setGeneratorKind_only_from_not_generator :
  (∀ s k, is_Some (setGeneratorKind s k) ↔ isGenerator s = false) ∧
  (∀ s k s', setGeneratorKind s k = Some s' →
     generatorKind s' = k ∧ asyncKind s' = asyncKind s ∧
     (∀ kind, hasArray s' kind = hasArray s kind) ∧
     hasYieldAndAwaitOffsets s' = is_Generator k || isAsync s) ∧
  (∀ s kinds k s', setGeneratorKind_run s (kinds ++ [k]) = Some s' →
     isGenerator s = false ∧ Forall (λ k', k' = NotGenerator) kinds ∧
     generatorKind s' = k) ∧
  (∀ s s' k, setGeneratorKind s Generator = Some s' → setGeneratorKind s' k = None) ∧
  (∀ s k k', asyncKind (setAsyncKind (setAsyncKind s k) k') = k' ∧
             generatorKind (setAsyncKind s k) = generatorKind s).
Proof.
  split; [|split; [|split; [|split]]].
  - intros s k. unfold setGeneratorKind. destruct (isGenerator s); simpl.
    + split; [by intros [? ?]|done].
    + split; [done|by eexists].
  - intros s k s' [Hg ->]%setGeneratorKind_Some.
    unfold generatorKind, asyncKind, hasYieldAndAwaitOffsets, isGenerator, isAsync.
    simpl. by destruct k.
  - intros s kinds. revert s. induction kinds as [|k0 kinds IH]; intros s k s' H.
    + simpl in H. destruct (setGeneratorKind s k) as [s1|] eqn:E; [|done].
      simpl in H. injection H as <-.
      apply setGeneratorKind_Some in E as [Hg ->].
      split; [done|]. split; [constructor|].
      unfold generatorKind. simpl. by destruct k.
    + simpl in H. destruct (setGeneratorKind s k0) as [s1|] eqn:E; [|done].
      simpl in H. destruct (IH _ _ _ H) as (Hg1 & Hall & Hk).
      apply setGeneratorKind_Some in E as [Hg ->].
      split; [done|]. split; [|done]. constructor; [|done].
      unfold isGenerator in Hg1. simpl in Hg1. by destruct k0.
  - intros s s' k [Hg ->]%setGeneratorKind_Some. unfold setGeneratorKind. done.
  - intros s k k'. unfold asyncKind, generatorKind, setAsyncKind. simpl.
    by destruct k'.
Qed.

(** ** Shared script data: comparison and payload regions *)

Section SharedDataFacts.
Import SharedScriptData.
Context `{abi : ABI}.

Lemma match_refl_wf a : well_formed a → match_ a a = true.
Proof.
  intros Hwf. apply match_true. repeat split.
  apply (ArrayEqual_eq (Z.to_nat (dataLength a))); [| |done];
    unfold well_formed, data in *; lia.
Qed.

(** X15. On blocks whose payload is [dataLength()] bytes long, the hasher's
    [match] is equality up to the count of references: two blocks match
    exactly when they have the same three counts and the same payload
    bytes.  Every such block matches itself, the order of the two
    arguments does not matter, and the counts of references are not
    looked at. *)
Theorem match_equal_up_to_refCount (a b : SharedScriptData) :
  well_formed a → well_formed b →
  (match_ a b = true ↔ with_refCount a (refCount b) = b) ∧
  match_ a a = true ∧
  match_ a b = match_ b a ∧
  (∀ r r', match_ (with_refCount a r) (with_refCount b r') = match_ a b).
Proof.
  intros Ha Hb. split; [|split; [|split]].
  - split.
    + intros (H1 & H2 & H3 & H4)%match_true.
      apply (ArrayEqual_eq (Z.to_nat (dataLength b))) in H4.
      * unfold natoms, codeLength, numNotes, data, refCount in *.
        destruct a, b. simpl in *. by subst.
      * rewrite <- (dataLength_counts a b) by done.
        unfold well_formed, data in *. lia.
      * unfold well_formed, data in *. lia.
    + intros <-. rewrite match_with_refCount_r. by apply match_refl_wf.
  - by apply match_refl_wf.
  - destruct (match_ a b) eqn:Hab, (match_ b a) eqn:Hba; try done.
    + apply match_sym in Hab. congruence.
    + apply match_sym in Hba. congruence.
  - done.
Qed.

(** X16. When the three counts are unsigned 32-bit values and the length of
    the payload does not overflow [size_t], the payload is laid out as
    atoms, then code, then notes, without gaps: [code()] is [data()] plus
    the size of the atoms, [notes()] is [code()] plus the code length, and
    the payload ends [numNotes()] bytes after [notes()]; the three
    pointers are in order inside the payload.  [atoms()] is null exactly
    when there are no atoms (or [data()] itself is null), and is
    [data()] otherwise. *)
Theorem payload_regions (data_addr : Z) (d : SharedScriptData) :
  abi_ok → counts_in_range d →
  natoms d * sizeof_GCPtrAtom + codeLength d + numNotes d < 2 ^ size_t_bits →
  code data_addr d = data_addr + natoms d * sizeof_GCPtrAtom ∧
  notes data_addr d = code data_addr d + codeLength d ∧
  data_addr + dataLength d = notes data_addr d + numNotes d ∧
  data_addr ≤ code data_addr d ∧ code data_addr d ≤ notes data_addr d ∧
  notes data_addr d ≤ data_addr + dataLength d ∧
  (atoms data_addr d = nullptr ↔ natoms d = 0 ∨ data_addr = nullptr) ∧
  (natoms d ≠ 0 → atoms data_addr d = data_addr) ∧
  (natoms d = 0 → code data_addr d = data_addr).
Proof.
  intros (Hb & [Hsz _] & _) (Hn & Hc & Ht) Hsum.
  unfold natoms, codeLength, numNotes in *.
  assert (H0 : 0 ≤ natoms_ d * sizeof_GCPtrAtom) by nia.
  assert (H1 : codeOffset d = natoms_ d * sizeof_GCPtrAtom).
  { unfold codeOffset, wrap_size. apply Z.mod_small. lia. }
  assert (H2 : notesOffset d = natoms_ d * sizeof_GCPtrAtom + codeLength_ d).
  { unfold notesOffset, wrap_size. apply Z.mod_small. lia. }
  assert (H3 : dataLength d =
               natoms_ d * sizeof_GCPtrAtom + codeLength_ d + noteLength_ d).
  { unfold dataLength, wrap_size. apply Z.mod_small. lia. }
  unfold code, notes, atoms. rewrite H1, H2, H3.
  do 6 (split; [lia|]).
  destruct (Z.eqb_spec (natoms_ d) 0) as [E|E].
  - split; [split; [by left | done]|]. split; [done|]. intros _. lia.
  - split; [split; [by right | intros [?|?]; [lia | done]]|].
    split; [done | lia].
Qed.

End SharedDataFacts.

Lemma match_equal_up_to_refCount_witness :
  @SharedScriptData.match_ LP64 (SharedScriptData.sample_block 2)
     (SharedScriptData.sample_block 1) = true.
Proof.
  destruct (@match_equal_up_to_refCount LP64 (SharedScriptData.sample_block 2)
              (SharedScriptData.sample_block 1)) as [H _]; [done | done |].
  by apply H.
Defined.

Lemma payload_regions_witness :
  @SharedScriptData.notes LP64 4096 (SharedScriptData.sample_block 1) = 4097 ∧
  SharedScriptData.atoms 4096 (SharedScriptData.sample_block 1) = nullptr.
Proof.
  destruct (@payload_regions LP64 4096 (SharedScriptData.sample_block 1))
    as (H1 & H2 & _ & _ & _ & _ & H7 & _);
    [apply LP64_ok | unfold SharedScriptData.counts_in_range; simpl; lia
     | simpl; lia |].
  split; [by rewrite H2, H1 | apply H7; by left].
Defined.

(** ** Bytecode addresses and offsets *)

Section CodeFacts.
Import ScriptCode.
Context `{abi : ABI}.

(** X17. For a script with script data whose code length fits [size_t]:
    [offsetToPC] returns exactly on offsets below the code length, the
    address it returns is inside the code, and [pcToOffset] maps it back to
    the offset; [pcToOffset] returns exactly on addresses for which
    [containsPC] holds, its offset is below the code length, and
    [offsetToPC] maps it back to the address.  [codeEnd()] is not inside
    the code.  Without script data [code()] is null, the script counts as
    uncompleted, and [length], [offsetToPC] and [pcToOffset] crash. *)
Theorem pc_offset_round_trip (data_addr : Z) (d : SharedScriptData.SharedScriptData) :
  0 < size_t_bits → 0 ≤ SharedScriptData.codeLength d < 2 ^ size_t_bits →
  (∀ offset, 0 ≤ offset < SharedScriptData.codeLength d →
     ∃ pc, offsetToPC (Some (data_addr, d)) offset = Some pc ∧
           containsPC (Some (data_addr, d)) pc = Some true ∧
           pcToOffset (Some (data_addr, d)) pc = Some offset) ∧
  (∀ offset, SharedScriptData.codeLength d ≤ offset →
     offsetToPC (Some (data_addr, d)) offset = None) ∧
  (∀ pc, containsPC (Some (data_addr, d)) pc = Some true →
     ∃ offset, pcToOffset (Some (data_addr, d)) pc = Some offset ∧
               0 ≤ offset < SharedScriptData.codeLength d ∧
               offsetToPC (Some (data_addr, d)) offset = Some pc) ∧
  (∀ pc, is_Some (pcToOffset (Some (data_addr, d)) pc) ↔
         containsPC (Some (data_addr, d)) pc = Some true) ∧
  (∀ e, codeEnd (Some (data_addr, d)) = Some e →
        containsPC (Some (data_addr, d)) e = Some false) ∧
  code None = nullptr ∧ isUncompleted None = true ∧ length None = None ∧
  (∀ offset, offsetToPC None offset = None) ∧
  (∀ pc, pcToOffset None pc = None).
Proof.
  intros Hb Hlen.
  set (c := SharedScriptData.code data_addr d).
  set (n := SharedScriptData.codeLength d) in *.
  assert (Hcont : ∀ pc, containsPC (Some (data_addr, d)) pc =
                        Some ((c <=? pc) && (pc <? c + n))).
  { intros pc. unfold containsPC, codeEnd, length, code, andM. simpl.
    fold c n. by destruct (c <=? pc). }
  assert (Hto : ∀ pc, pcToOffset (Some (data_addr, d)) pc =
                      if (c <=? pc) && (pc <? c + n)
                      then Some (wrap_size (pc - c)) else None).
  { intros pc. unfold pcToOffset. rewrite Hcont. simpl.
    by destruct ((c <=? pc) && (pc <? c + n)). }
  assert (Hof : ∀ offset, offsetToPC (Some (data_addr, d)) offset =
                          if offset <? n then Some (c + offset) else None).
  { intros offset. unfold offsetToPC, length. simpl. fold n.
    by destruct (offset <? n). }
  assert (Hsmall : ∀ z, 0 ≤ z < n → wrap_size z = z).
  { intros z Hz. unfold wrap_size. apply Z.mod_small. lia. }
  split; [|split; [|split; [|split; [|split]]]].
  - intros offset Ho. exists (c + offset).
    rewrite Hof, Hcont, Hto.
    destruct (Z.ltb_spec offset n); [|lia].
    destruct (Z.leb_spec c (c + offset)); [|lia].
    destruct (Z.ltb_spec (c + offset) (c + n)); [|lia]. simpl.
    repeat split. f_equal. rewrite Hsmall by lia. lia.
  - intros offset Ho. rewrite Hof. destruct (Z.ltb_spec offset n); [lia|done].
  - intros pc. rewrite Hcont, Hto. intros [= Hin]. rewrite Hin.
    apply andb_true_iff in Hin as [H1%Z.leb_le H2%Z.ltb_lt].
    exists (pc - c). rewrite Hsmall, Hof by lia.
    split; [done|]. split; [lia|].
    destruct (Z.ltb_spec (pc - c) n); [|lia]. f_equal. lia.
  - intros pc. rewrite Hcont, Hto.
    destruct ((c <=? pc) && (pc <? c + n)).
    + split; [done | by eexists].
    + split; [by intros [? ?] | done].
  - intros e. unfold codeEnd, length, code. simpl. fold c n. intros [= <-].
    rewrite Hcont. f_equal. apply andb_false_iff. right. apply Z.ltb_ge. lia.
  - repeat split.
    intros pc. unfold pcToOffset, containsPC, codeEnd, length, andM. simpl.
    by destruct (nullptr <=? pc).
Qed.

End CodeFacts.

Lemma pc_offset_round_trip_witness :
  @ScriptCode.pcToOffset LP64 (Some (4096, SharedScriptData.sample_block 1)) 4096
    = Some 0 ∧
  @ScriptCode.offsetToPC LP64 (Some (4096, SharedScriptData.sample_block 1)) 0
    = Some 4096.
Proof.
  destruct (@pc_offset_round_trip LP64 4096 (SharedScriptData.sample_block 1))
    as (_ & _ & H3 & _); [done | simpl; lia |].
  destruct (H3 4096) as (offset & H4 & H5 & H6); [reflexivity|].
  assert (offset = 0) as -> by (simpl in H5; lia). done.
Defined.

(** ** Warm-up counters *)

Section WarmUpFacts.
Import WarmUp.

(** X18. The warm-up count is an unsigned 32-bit counter and the reset
    count an unsigned 16-bit one, and neither is guarded against
    overflow: two increments are one increment by the sum, modulo 2^32,
    and the value returned is the value stored; [resetWarmUpCounter]
    zeroes the count and advances the reset count by one modulo 2^16, so
    that n resets in a row advance it by n modulo 2^16 and the reset
    after 65535 gives 0; [resetWarmUpResetCounter] zeroes the reset count
    and leaves the warm-up count alone. *)
Theorem warm_up_counters_wrap (c : Counters) :
  (∀ a b, snd (incWarmUpCounter (snd (incWarmUpCounter c a)) b) =
          snd (incWarmUpCounter c (a + b))) ∧
  (∀ a, fst (incWarmUpCounter c a) = getWarmUpCount (snd (incWarmUpCounter c a)) ∧
        0 ≤ fst (incWarmUpCounter c a) < 2 ^ 32 ∧
        getWarmUpResetCount (snd (incWarmUpCounter c a)) = getWarmUpResetCount c) ∧
  getWarmUpCount (resetWarmUpCounter c) = 0 ∧
  getWarmUpResetCount (resetWarmUpCounter c) = wrap16 (getWarmUpResetCount c + 1) ∧
  (∀ n, getWarmUpResetCount (Nat.iter (S n) resetWarmUpCounter c) =
        wrap16 (getWarmUpResetCount c + Z.of_nat (S n))) ∧
  (getWarmUpResetCount c = 2 ^ 16 - 1 →
   getWarmUpResetCount (resetWarmUpCounter c) = 0) ∧
  getWarmUpResetCount (resetWarmUpResetCounter c) = 0 ∧
  getWarmUpCount (resetWarmUpResetCounter c) = getWarmUpCount c.
Proof.
  split; [|split; [|split; [|split; [|split; [|split]]]]].
  - intros a b. unfold incWarmUpCounter, wrap32. simpl. f_equal.
    by rewrite Zplus_mod_idemp_l, Z.add_assoc.
  - intros a. unfold incWarmUpCounter, wrap32. simpl.
    split; [done|]. split; [apply Z.mod_pos_bound; lia | done].
  - done.
  - done.
  - assert (Hstep : ∀ x, getWarmUpResetCount (resetWarmUpCounter x) =
                         wrap16 (getWarmUpResetCount x + 1)) by done.
    induction n as [|n IH].
    + done.
    + change (Nat.iter (S (S n)) resetWarmUpCounter c)
        with (resetWarmUpCounter (Nat.iter (S n) resetWarmUpCounter c)).
      rewrite Hstep, IH. unfold wrap16. rewrite Zplus_mod_idemp_l. f_equal. lia.
  - intros H. unfold resetWarmUpCounter, getWarmUpResetCount in *. simpl.
    by rewrite H.
  - done.
Qed.

End WarmUpFacts.
